(** * Event ring: shared-memory structures and reader-side access functions

    A shallow embedding of [category/core/event/event_ring.h]:

    - the shared-memory structures ([monad_event_descriptor],
      [monad_event_ring_control], [monad_event_ring_header],
      [monad_event_ring_size]), their layout, and the per-process handle
      [monad_event_ring];
    - the size limits and the header version constant;
    - the four inline reader functions [monad_event_ring_try_copy],
      [monad_event_ring_payload_peek], [monad_event_ring_payload_check]
      and [monad_event_ring_payload_memcpy].

    The reader functions run against a mapping that the recorder (another
    thread or process) keeps writing.  They are therefore written in a small
    monad whose actions are the individual accesses to the mapping; the
    interpreter gives every access its own snapshot of the shared memory.

    The header only declares [monad_event_ring_init_size],
    [monad_event_ring_init_file] and [monad_event_ring_mmap], and the
    recorder is in another file altogether.  What the properties below need
    of them is modelled from the specification; every such definition says
    so. *)

From Stdlib Require Import String ZArith List Bool Lia Ascii.
Import ListNotations.
Local Open Scope Z_scope.

(** ** Machine integers *)

Definition UINT8_MAX : Z := 2 ^ 8 - 1.
Definition UINT16_MAX : Z := 2 ^ 16 - 1.
Definition UINT32_MAX : Z := 2 ^ 32 - 1.
Definition UINT64_MAX : Z := 2 ^ 64 - 1.

Definition is_uint64 (x : Z) : Prop := 0 <= x <= UINT64_MAX.

(** [uint64_t] arithmetic wraps modulo [2^64]. *)
Definition wrap64 (x : Z) : Z := x mod 2 ^ 64.
Definition sub64 (a b : Z) : Z := wrap64 (a - b).

(** Pointers are addresses; [nullptr] is address 0. *)
Definition ptr := Z.
Definition nullptr : ptr := 0.

(** ** Shared-memory structures *)

(** [struct monad_event_descriptor] *)
Record monad_event_descriptor := {
  seqno : Z;               (* uint64_t, alignas(64) *)
  event_type : Z;          (* uint16_t *)
  payload_size : Z;        (* uint32_t *)
  record_epoch_nanos : Z;  (* uint64_t *)
  payload_buf_offset : Z;  (* uint64_t *)
  content_ext : Z * Z * Z * Z  (* uint64_t[4] *)
}.

(** [struct monad_event_ring_size] *)
Record monad_event_ring_size := {
  descriptor_capacity : Z;
  payload_buf_size : Z;
  context_area_size : Z
}.

(** [struct monad_event_ring_control] *)
Record monad_event_ring_control := {
  last_seqno : Z;
  next_payload_byte : Z;
  buffer_window_start : Z
}.

(** [enum monad_event_content_type : uint16_t] *)
Inductive monad_event_content_type :=
| MONAD_EVENT_CONTENT_TYPE_NONE
| MONAD_EVENT_CONTENT_TYPE_TEST
| MONAD_EVENT_CONTENT_TYPE_EXEC
| MONAD_EVENT_CONTENT_TYPE_COUNT.

Definition content_type_value (c : monad_event_content_type) : Z :=
  match c with
  | MONAD_EVENT_CONTENT_TYPE_NONE => 0
  | MONAD_EVENT_CONTENT_TYPE_TEST => 1
  | MONAD_EVENT_CONTENT_TYPE_EXEC => 2
  | MONAD_EVENT_CONTENT_TYPE_COUNT => 3
  end.

(** [enum monad_event_record_error_type : uint16_t] *)
Inductive monad_event_record_error_type :=
| MONAD_EVENT_RECORD_ERROR_NONE
| MONAD_EVENT_RECORD_ERROR_OVERFLOW_4GB
| MONAD_EVENT_RECORD_ERROR_OVERFLOW_EXPIRE
| MONAD_EVENT_RECORD_ERROR_MISSING_EVENT.

(** [struct monad_event_ring_header] *)
Record monad_event_ring_header := {
  magic : list Z;          (* char[6] *)
  content_type : monad_event_content_type;
  schema_hash : list Z;    (* uint8_t[32] *)
  size : monad_event_ring_size;
  control : monad_event_ring_control
}.

(** [struct monad_event_ring]: the handle of a mapped ring.  The pointer
    fields are addresses in the address space of the mapping process. *)
Record monad_event_ring := {
  mmap_prot : Z;
  header : ptr;
  descriptors : ptr;
  payload_buf : ptr;
  context_area : ptr;
  desc_capacity_mask : Z;
  payload_buf_mask : Z
}.

(** ** Constants *)

Definition byte_of_char (c : ascii) : Z := Z.of_nat (nat_of_ascii c).

(** [constexpr uint8_t MONAD_EVENT_RING_HEADER_VERSION[]] *)
Definition MONAD_EVENT_RING_HEADER_VERSION : list Z :=
  map byte_of_char ["R"; "I"; "N"; "G"; "0"; "1"]%char.

Definition MONAD_EVENT_MIN_DESCRIPTORS_SHIFT : Z := 16.
Definition MONAD_EVENT_MAX_DESCRIPTORS_SHIFT : Z := 32.
Definition MONAD_EVENT_MIN_PAYLOAD_BUF_SHIFT : Z := 27.
Definition MONAD_EVENT_MAX_PAYLOAD_BUF_SHIFT : Z := 40.

Definition MONAD_EVENT_WINDOW_INCR : Z := Z.shiftl 1 24.
Definition MONAD_EVENT_PAYLOAD_ALIGN : Z := 16.

(** ** Memory

    The mapping is written by the recorder only; a reader has it mapped
    [const].  What a reader writes (the descriptor it is handed through
    [event], the bytes behind [dst]) lives in its own memory. *)

(** The mapped ring as one reader access sees it. *)
Record shared_memory := {
  shm_control : monad_event_ring_control;         (* event_ring->header->control *)
  shm_descriptors : Z -> monad_event_descriptor;  (* event_ring->descriptors[i] *)
  shm_bytes : ptr -> Z                            (* bytes of the mapping, by address *)
}.

(** The reader's own memory: descriptor objects and bytes, by address. *)
Record local_memory := {
  loc_descriptors : ptr -> monad_event_descriptor;
  loc_bytes : ptr -> Z
}.

Definition store_descriptor (p : ptr) (d : monad_event_descriptor)
    (loc : local_memory) : local_memory :=
  {| loc_descriptors := fun q => if q =? p then d else loc_descriptors loc q;
     loc_bytes := loc_bytes loc |}.

Definition store_byte (p : ptr) (b : Z) (loc : local_memory) : local_memory :=
  {| loc_descriptors := loc_descriptors loc;
     loc_bytes := fun q => if q =? p then b else loc_bytes loc q |}.

(** ** The reader monad

    A reader computation is a tree of accesses.  The first four constructors
    read the mapping (each one is a point at which the recorder may have run
    since the previous access); the last two write the reader's own memory. *)
Inductive reader (A : Type) : Type :=
| Ret (a : A)
| ReadDescriptor (idx : Z) (k : monad_event_descriptor -> reader A)
| AtomicLoadSeqno (idx : Z) (k : Z -> reader A)
| AtomicLoadWindowStart (k : Z -> reader A)
| ReadByte (src : ptr) (k : Z -> reader A)
| StoreDescriptor (p : ptr) (d : monad_event_descriptor) (k : reader A)
| StoreByte (dst : ptr) (b : Z) (k : reader A).

Arguments Ret {A} a.
Arguments ReadDescriptor {A} idx k.
Arguments AtomicLoadSeqno {A} idx k.
Arguments AtomicLoadWindowStart {A} k.
Arguments ReadByte {A} src k.
Arguments StoreDescriptor {A} p d k.
Arguments StoreByte {A} dst b k.

Fixpoint bind {A B : Type} (m : reader A) (f : A -> reader B) : reader B :=
  match m with
  | Ret a => f a
  | ReadDescriptor i k => ReadDescriptor i (fun d => bind (k d) f)
  | AtomicLoadSeqno i k => AtomicLoadSeqno i (fun s => bind (k s) f)
  | AtomicLoadWindowStart k => AtomicLoadWindowStart (fun w => bind (k w) f)
  | ReadByte p k => ReadByte p (fun b => bind (k b) f)
  | StoreDescriptor p d k => StoreDescriptor p d (bind k f)
  | StoreByte p b k => StoreByte p b (bind k f)
  end.

Declare Scope reader_scope.
Delimit Scope reader_scope with reader.
Notation "x <- m ;; k" := (bind m (fun x => k))
  (at level 61, m at next level, right associativity) : reader_scope.
Notation "m ;; k" := (bind m (fun _ => k))
  (at level 61, right associativity) : reader_scope.
Local Open Scope reader_scope.

(** The elementary accesses as computations. *)
Definition read_descriptor (idx : Z) : reader monad_event_descriptor :=
  ReadDescriptor idx Ret.
Definition atomic_load_seqno (idx : Z) : reader Z := AtomicLoadSeqno idx Ret.
Definition atomic_load_window_start : reader Z := AtomicLoadWindowStart Ret.
Definition read_byte (src : ptr) : reader Z := ReadByte src Ret.
Definition write_descriptor (p : ptr) (d : monad_event_descriptor) : reader unit :=
  StoreDescriptor p d (Ret tt).
Definition write_byte (dst : ptr) (b : Z) : reader unit := StoreByte dst b (Ret tt).

(** An environment gives the state of the mapping at each access of the
    reader: [env t] is what the [t]-th access sees.  Nothing relates two
    consecutive snapshots, so an environment covers whatever the recorder
    does between two accesses. *)
Definition environment := nat -> shared_memory.

(** [run m env t loc] runs [m] with its first access at time [t] and returns
    the result, the reader's memory and the time of the next access. *)
Fixpoint run {A : Type} (m : reader A) (env : environment) (t : nat)
    (loc : local_memory) : A * local_memory * nat :=
  match m with
  | Ret a => (a, loc, t)
  | ReadDescriptor i k => run (k (shm_descriptors (env t) i)) env (S t) loc
  | AtomicLoadSeqno i k => run (k (seqno (shm_descriptors (env t) i))) env (S t) loc
  | AtomicLoadWindowStart k =>
      run (k (buffer_window_start (shm_control (env t)))) env (S t) loc
  | ReadByte p k => run (k (shm_bytes (env t) p)) env (S t) loc
  | StoreDescriptor p d k => run k env t (store_descriptor p d loc)
  | StoreByte p b k => run k env t (store_byte p b loc)
  end.

Definition result {A : Type} (r : A * local_memory * nat) : A := fst (fst r).
Definition memory {A : Type} (r : A * local_memory * nat) : local_memory :=
  snd (fst r).
Definition clock {A : Type} (r : A * local_memory * nat) : nat := snd r.

(** ** Event ring inline functions *)

(** [memcpy(dst, src, n)], byte by byte, from the mapping into the reader's
    memory. *)
Fixpoint memcpy_loop (n : nat) (dst src : ptr) : reader unit :=
  match n with
  | O => Ret tt
  | S n' =>
      b <- read_byte src ;;
      write_byte dst b ;;
      memcpy_loop n' (dst + 1) (src + 1)
  end.

Definition memcpy (dst src : ptr) (n : Z) : reader unit :=
  memcpy_loop (Z.to_nat n) dst src.

(** [monad_event_ring_try_copy]: [*event = *ring_event] is a plain copy of
    the slot, the load of [ring_event->seqno] that follows is a separate
    access.  The copy of the 64 bytes is taken as one access; splitting it
    up would only add interleavings. *)
Definition monad_event_ring_try_copy (event_ring : monad_event_ring)
    (seqno : Z) (event : ptr) : reader bool :=
  if seqno =? 0 then Ret false
  else
    let ring_event := Z.land (sub64 seqno 1) (desc_capacity_mask event_ring) in
    d <- read_descriptor ring_event ;;
    write_descriptor event d ;;
    ring_seqno <- atomic_load_seqno ring_event ;;
    if negb (ring_seqno =? seqno) then Ret false
    else Ret true.

(** [monad_event_ring_payload_peek].  In the payload functions [event]
    points to a descriptor of the reader's own (the copy it took), which
    nobody else writes: it is passed by value. *)
Definition monad_event_ring_payload_peek (event_ring : monad_event_ring)
    (event : monad_event_descriptor) : ptr :=
  payload_buf event_ring
  + Z.land (payload_buf_offset event) (payload_buf_mask event_ring).

(** [monad_event_ring_payload_check] *)
Definition monad_event_ring_payload_check (event_ring : monad_event_ring)
    (event : monad_event_descriptor) : reader bool :=
  w <- atomic_load_window_start ;;
  Ret (payload_buf_offset event >=? w).

(** [monad_event_ring_payload_memcpy] *)
Definition monad_event_ring_payload_memcpy (event_ring : monad_event_ring)
    (event : monad_event_descriptor) (dst : ptr) (n : Z) : reader ptr :=
  live <- monad_event_ring_payload_check event_ring event ;;
  if negb live then Ret nullptr
  else
    let src := monad_event_ring_payload_peek event_ring event in
    memcpy dst src n ;;
    live' <- monad_event_ring_payload_check event_ring event ;;
    if negb live' then Ret nullptr (* Payload expired *)
    else Ret dst.

(** ** Layout of the shared-memory structures

    The structures are shared between processes and compared byte for byte,
    so their layout is part of the interface.  A structure is laid out by
    the rule of the C ABI: every member goes to the lowest offset at or after
    the end of the previous one that is a multiple of its alignment; the
    structure is aligned like its strictest member and its size is rounded
    up to that alignment. *)

Record member := {
  m_name : string;
  m_size : Z;       (* sizeof *)
  m_align : Z       (* alignof, or the alignas of the declaration *)
}.

Definition align_up (x a : Z) : Z := (x + a - 1) / a * a.

(** Offsets of the members, in declaration order, starting at [from]. *)
Fixpoint member_offsets (from : Z) (ms : list member) : list (string * Z * Z) :=
  match ms with
  | [] => []
  | m :: rest =>
      let off := align_up from (m_align m) in
      (m_name m, off, m_size m) :: member_offsets (off + m_size m) rest
  end.

Fixpoint members_end (from : Z) (ms : list member) : Z :=
  match ms with
  | [] => from
  | m :: rest => members_end (align_up from (m_align m) + m_size m) rest
  end.

Definition alignof_struct (ms : list member) : Z :=
  fold_right (fun m a => Z.max (m_align m) a) 1 ms.

Definition sizeof_struct (ms : list member) : Z :=
  align_up (members_end 0 ms) (alignof_struct ms).

(** Members of [struct monad_event_descriptor], as declared. *)
Definition monad_event_descriptor_members : list member :=
  [ {| m_name := "seqno"%string;              m_size := 8;  m_align := 64 |};
    {| m_name := "event_type"%string;         m_size := 2;  m_align := 2 |};
    {| m_name := ""%string;                   m_size := 2;  m_align := 2 |};
    {| m_name := "payload_size"%string;       m_size := 4;  m_align := 4 |};
    {| m_name := "record_epoch_nanos"%string; m_size := 8;  m_align := 8 |};
    {| m_name := "payload_buf_offset"%string; m_size := 8;  m_align := 8 |};
    {| m_name := "content_ext"%string;        m_size := 4 * 8; m_align := 8 |} ].

(** Members of [struct monad_event_ring_size]. *)
Definition monad_event_ring_size_members : list member :=
  [ {| m_name := "descriptor_capacity"%string; m_size := 8; m_align := 8 |};
    {| m_name := "payload_buf_size"%string;    m_size := 8; m_align := 8 |};
    {| m_name := "context_area_size"%string;   m_size := 8; m_align := 8 |} ].

(** Members of [struct monad_event_ring_control]. *)
Definition monad_event_ring_control_members : list member :=
  [ {| m_name := "last_seqno"%string;          m_size := 8; m_align := 64 |};
    {| m_name := "next_payload_byte"%string;   m_size := 8; m_align := 8 |};
    {| m_name := "buffer_window_start"%string; m_size := 8; m_align := 64 |} ].

(** Members of [struct monad_event_ring_header]. *)
Definition monad_event_ring_header_members : list member :=
  [ {| m_name := "magic"%string;        m_size := 6;  m_align := 1 |};
    {| m_name := "content_type"%string; m_size := 2;  m_align := 2 |};
    {| m_name := "schema_hash"%string;  m_size := 32; m_align := 1 |};
    {| m_name := "size"%string;
       m_size := sizeof_struct monad_event_ring_size_members;
       m_align := alignof_struct monad_event_ring_size_members |};
    {| m_name := "control"%string;
       m_size := sizeof_struct monad_event_ring_control_members;
       m_align := alignof_struct monad_event_ring_control_members |} ].

(** *** Object representation (little-endian host) *)

Fixpoint le_bytes (n : nat) (v : Z) : list Z :=
  match n with
  | O => []
  | S n' => v mod 256 :: le_bytes n' (v / 256)
  end.

Fixpoint le_value (bs : list Z) : Z :=
  match bs with
  | [] => 0
  | b :: rest => b + 256 * le_value rest
  end.

Definition zeros (n : nat) : list Z := repeat 0 n.

(** Bytes [off .. off + len - 1] of an object representation. *)
Definition slice (off len : Z) (bs : list Z) : list Z :=
  firstn (Z.to_nat len) (skipn (Z.to_nat off) bs).

(** The value of a member, cut or zero-filled to the size of the member. *)
Definition fit (n : nat) (v : list Z) : list Z := firstn n (v ++ zeros n).

(** A member that lies within an image of [len] bytes. *)
Definition member_fits (len : nat) (m : string * Z * Z) : Prop :=
  0 <= snd (fst m) /\ 0 <= snd m /\ snd (fst m) + snd m <= Z.of_nat len.

(** Writes the value of each member at the offset the layout gives it. *)
Fixpoint place_members (offs : list (string * Z * Z)) (vals : list (list Z))
    (image : list Z) : list Z :=
  match offs, vals with
  | (_, off, sz) :: offs', v :: vals' =>
      place_members offs' vals'
        (firstn (Z.to_nat off) image
         ++ fit (Z.to_nat sz) v
         ++ skipn (Z.to_nat (off + sz)) image)
  | _, _ => image
  end.

(** The bytes of a structure: [sizeof] bytes, the members at their offsets,
    zero in the padding. *)
Definition struct_image (ms : list member) (vals : list (list Z)) : list Z :=
  place_members (member_offsets 0 ms) vals
    (zeros (Z.to_nat (sizeof_struct ms))).

(** The bytes of a descriptor.  The unnamed 16-bit member is written as
    zero. *)
Definition encode_descriptor (d : monad_event_descriptor) : list Z :=
  let '(e0, e1, e2, e3) := content_ext d in
  struct_image monad_event_descriptor_members
    [ le_bytes 8 (seqno d);
      le_bytes 2 (event_type d);
      le_bytes 2 0;
      le_bytes 4 (payload_size d);
      le_bytes 8 (record_epoch_nanos d);
      le_bytes 8 (payload_buf_offset d);
      le_bytes 8 e0 ++ le_bytes 8 e1 ++ le_bytes 8 e2 ++ le_bytes 8 e3 ].

Definition encode_size (s : monad_event_ring_size) : list Z :=
  struct_image monad_event_ring_size_members
    [ le_bytes 8 (descriptor_capacity s);
      le_bytes 8 (payload_buf_size s);
      le_bytes 8 (context_area_size s) ].

Definition encode_control (c : monad_event_ring_control) : list Z :=
  struct_image monad_event_ring_control_members
    [ le_bytes 8 (last_seqno c);
      le_bytes 8 (next_payload_byte c);
      le_bytes 8 (buffer_window_start c) ].

Definition encode_header (h : monad_event_ring_header) : list Z :=
  struct_image monad_event_ring_header_members
    [ magic h;
      le_bytes 2 (content_type_value (content_type h));
      schema_hash h;
      encode_size (size h);
      encode_control (control h) ].

(** ** Initialization and mapping

    [monad_event_ring_init_size], [monad_event_ring_init_file] and
    [monad_event_ring_mmap] are declared in [event_ring.h] and defined
    elsewhere.  The size limits and the header version they use are the
    constants above. *)

(** Modelled from the spec: the error kinds of the initialization and
    mapping functions (section 7 of the specification); the header declares
    the functions with an [int] result only. *)
Inductive ring_error :=
| InvalidSize
| BadFile
| IoError
| AlreadyInitialized
| BadMagic
| SchemaMismatch.

Definition in_range (lo hi x : Z) : bool := (lo <=? x) && (x <=? hi).

Section InitSize.

(** Size of a large page; the context area is sized in large pages. *)
Variable large_page_size : Z.

(** Modelled from the spec: [monad_event_ring_init_size], whose body is not
    in [event_ring.h].  A size structure is produced iff both shifts are
    within the limits; an out-of-range shift fails with [InvalidSize]. *)
Definition monad_event_ring_init_size
    (descriptors_shift payload_buf_shift context_large_pages : Z)
    : ring_error + monad_event_ring_size :=
  if negb (in_range MONAD_EVENT_MIN_DESCRIPTORS_SHIFT
                    MONAD_EVENT_MAX_DESCRIPTORS_SHIFT descriptors_shift)
  then inl InvalidSize
  else if negb (in_range MONAD_EVENT_MIN_PAYLOAD_BUF_SHIFT
                         MONAD_EVENT_MAX_PAYLOAD_BUF_SHIFT payload_buf_shift)
  then inl InvalidSize
  else inr {| descriptor_capacity := Z.shiftl 1 descriptors_shift;
              payload_buf_size := Z.shiftl 1 payload_buf_shift;
              context_area_size := context_large_pages * large_page_size |}.

End InitSize.

(** A file is its bytes by offset. *)
Definition file := Z -> Z.

Definition file_read (f : file) (off : Z) (n : nat) : list Z :=
  map (fun i => f (off + Z.of_nat i)) (seq 0 n).

Definition file_write (f : file) (off : Z) (bs : list Z) : file :=
  fun a =>
    if (off <=? a) && (a <? off + Z.of_nat (List.length bs))
    then nth (Z.to_nat (a - off)) bs 0
    else f a.

Definition file_zero (f : file) (off len : Z) : file :=
  fun a => if (off <=? a) && (a <? off + len) then 0 else f a.

Fixpoint bytes_eqb (a b : list Z) : bool :=
  match a, b with
  | [], [] => true
  | x :: a', y :: b' => (x =? y) && bytes_eqb a' b'
  | _, _ => false
  end.

Definition zero_control : monad_event_ring_control :=
  {| last_seqno := 0; next_payload_byte := 0; buffer_window_start := 0 |}.

Definition zero_descriptor : monad_event_descriptor :=
  {| seqno := 0; event_type := 0; payload_size := 0; record_epoch_nanos := 0;
     payload_buf_offset := 0; content_ext := (0, 0, 0, 0) |}.

(** The descriptor array starts at the first 4K boundary after the header. *)
Definition descriptors_file_offset : Z :=
  align_up (sizeof_struct monad_event_ring_header_members) 4096.

(** Modelled from the spec: the header [monad_event_ring_init_file] writes
    (section 4.2): magic [RINGvv], the supplied content type and schema hash,
    the sizes, a zeroed control block. *)
Definition fresh_header (sz : monad_event_ring_size)
    (ct : monad_event_content_type) (hash : list Z) : monad_event_ring_header :=
  {| magic := MONAD_EVENT_RING_HEADER_VERSION;
     content_type := ct;
     schema_hash := hash;
     size := sz;
     control := zero_control |}.

(** Modelled from the spec: [monad_event_ring_init_file], whose body is not
    in [event_ring.h] (section 4.2).  The file is taken to be open, writable
    and large enough, so [BadFile] and [IoError] do not arise; a range that
    already starts with the magic is reported as [AlreadyInitialized]. *)
Definition monad_event_ring_init_file (sz : monad_event_ring_size)
    (ct : monad_event_content_type) (hash : list Z) (ring : file)
    (ring_offset : Z) : ring_error + file :=
  if bytes_eqb (file_read ring ring_offset 6) MONAD_EVENT_RING_HEADER_VERSION
  then inl AlreadyInitialized
  else
    let zeroed :=
      file_zero ring (ring_offset + descriptors_file_offset)
                (descriptor_capacity sz * 64) in
    inr (file_write zeroed ring_offset (encode_header (fresh_header sz ct hash))).

Definition is_pow2_shift (lo hi x : Z) : bool :=
  in_range lo hi (Z.log2 x) && (x =? Z.shiftl 1 (Z.log2 x)).

(** Modelled from the spec: the checks of [monad_event_ring_mmap] and the
    handle it fills in (section 4.3); its body is not in [event_ring.h].
    [base] is the address the mapping is placed at.  The magic is compared
    octet by octet, the schema hash is compared when one is expected, the
    sizes must be powers of two within the limits, and the masks are
    derived from the sizes. *)
Definition monad_event_ring_mmap (prot : Z) (ring : file) (ring_offset : Z)
    (expected_hash : option (list Z)) (base : ptr)
    : ring_error + monad_event_ring :=
  if negb (bytes_eqb (file_read ring ring_offset 6)
                     MONAD_EVENT_RING_HEADER_VERSION)
  then inl BadMagic
  else if match expected_hash with
          | Some h => negb (bytes_eqb (file_read ring (ring_offset + 8) 32) h)
          | None => false
          end
  then inl SchemaMismatch
  else
    let capacity := le_value (file_read ring (ring_offset + 40) 8) in
    let buf_size := le_value (file_read ring (ring_offset + 48) 8) in
    if negb (is_pow2_shift MONAD_EVENT_MIN_DESCRIPTORS_SHIFT
                           MONAD_EVENT_MAX_DESCRIPTORS_SHIFT capacity
             && is_pow2_shift MONAD_EVENT_MIN_PAYLOAD_BUF_SHIFT
                              MONAD_EVENT_MAX_PAYLOAD_BUF_SHIFT buf_size)
    then inl InvalidSize
    else
      let descs := base + descriptors_file_offset in
      let payload := align_up (descs + capacity * 64) 4096 in
      inr {| mmap_prot := prot;
             header := base;
             descriptors := descs;
             payload_buf := payload;
             context_area := payload + buf_size;
             desc_capacity_mask := capacity - 1;
             payload_buf_mask := buf_size - 1 |}.

(** ** The recorder

    The recording side is not part of [event_ring.h]; what it does to a
    descriptor slot is described in section 4.4 of the specification. *)

(** The descriptor [body] with sequence number [s]. *)
Definition with_seqno (s : Z) (body : monad_event_descriptor)
    : monad_event_descriptor :=
  {| seqno := s;
     event_type := event_type body;
     payload_size := payload_size body;
     record_epoch_nanos := record_epoch_nanos body;
     payload_buf_offset := payload_buf_offset body;
     content_ext := content_ext body |}.

Definition update_slot (i : Z) (d : monad_event_descriptor)
    (descs : Z -> monad_event_descriptor) : Z -> monad_event_descriptor :=
  fun j => if j =? i then d else descs j.

Inductive recorder_pc :=
| Idle                 (* between two events *)
| Reserved (s : Z)     (* slot of [s] reserved, nothing written yet *)
| Filled (s : Z).      (* body of [s] written, [seqno] not yet stored *)

Record recorder := {
  rec_pc : recorder_pc;
  rec_pending : list monad_event_descriptor;  (* bodies still to record *)
  rec_shm : shared_memory
}.

(** Modelled from the spec: one step of the recorder (section 4.4, steps 1,
    7 and 8; the recorder is not in the sources).  It reserves the next
    sequence number [s] by incrementing [last_seqno], fills the body of slot
    [(s - 1) mod capacity], and publishes by storing [seqno = s] last.  The
    payload steps 2 to 6 touch the payload buffer and the window only; the
    body to record, with its [payload_buf_offset], is an input here. *)
Definition recorder_step (capacity : Z) (r : recorder) : recorder :=
  let shm := rec_shm r in
  match rec_pc r, rec_pending r with
  | Idle, _ :: _ =>
      let s := wrap64 (last_seqno (shm_control shm) + 1) in
      {| rec_pc := Reserved s;
         rec_pending := rec_pending r;
         rec_shm :=
           {| shm_control :=
                {| last_seqno := s;
                   next_payload_byte := next_payload_byte (shm_control shm);
                   buffer_window_start := buffer_window_start (shm_control shm) |};
              shm_descriptors := shm_descriptors shm;
              shm_bytes := shm_bytes shm |} |}
  | Reserved s, body :: _ =>
      let i := (s - 1) mod capacity in
      {| rec_pc := Filled s;
         rec_pending := rec_pending r;
         rec_shm :=
           {| shm_control := shm_control shm;
              shm_descriptors :=
                update_slot i (with_seqno (seqno (shm_descriptors shm i)) body)
                            (shm_descriptors shm);
              shm_bytes := shm_bytes shm |} |}
  | Filled s, _ :: rest =>
      let i := (s - 1) mod capacity in
      {| rec_pc := Idle;
         rec_pending := rest;
         rec_shm :=
           {| shm_control := shm_control shm;
              shm_descriptors :=
                update_slot i (with_seqno s (shm_descriptors shm i))
                            (shm_descriptors shm);
              shm_bytes := shm_bytes shm |} |}
  | _, [] => r
  end.

Fixpoint recorder_run (capacity : Z) (n : nat) (r : recorder) : recorder :=
  match n with
  | O => r
  | S n' => recorder_run capacity n' (recorder_step capacity r)
  end.

(** The ring as [monad_event_ring_init_file] leaves it, with the events the
    recorder is going to record. *)
Definition fresh_recorder (events : list monad_event_descriptor) : recorder :=
  {| rec_pc := Idle;
     rec_pending := events;
     rec_shm := {| shm_control := zero_control;
                   shm_descriptors := fun _ => zero_descriptor;
                   shm_bytes := fun _ => 0 |} |}.

(** The descriptor the recorder produces for sequence number [s]. *)
Definition produced (events : list monad_event_descriptor) (s : Z)
    : monad_event_descriptor :=
  with_seqno s (nth (Z.to_nat (s - 1)) events zero_descriptor).

(** A schedule says how many steps the recorder takes just before each
    access of the reader. *)
Definition schedule := nat -> nat.

Fixpoint steps_until (sched : schedule) (t : nat) : nat :=
  match t with
  | O => sched O
  | S t' => steps_until sched t' + sched (S t')
  end.

(** The environment of a reader that runs interleaved with the recorder. *)
Definition interleaving (capacity : Z) (r0 : recorder) (sched : schedule)
    : environment :=
  fun t => rec_shm (recorder_run capacity (steps_until sched t) r0).

(** ** Sample rings and runs

    Concrete values on which the functions above are evaluated. *)

(** The descriptor [d] with another [payload_size]. *)
Definition with_payload_size (ps : Z) (d : monad_event_descriptor)
    : monad_event_descriptor :=
  {| seqno := seqno d;
     event_type := event_type d;
     payload_size := ps;
     record_epoch_nanos := record_epoch_nanos d;
     payload_buf_offset := payload_buf_offset d;
     content_ext := content_ext d |}.

(** The smallest ring [monad_event_ring_init_size] accepts: [2^16]
    descriptors and a [2^27]-byte payload buffer. *)
Definition sample_size : monad_event_ring_size :=
  {| descriptor_capacity := 2 ^ 16;
     payload_buf_size := 2 ^ 27;
     context_area_size := 0 |}.

Definition sample_ring : monad_event_ring :=
  {| mmap_prot := 1;
     header := 0x7f0000000000;
     descriptors := 0x7f0000001000;
     payload_buf := 0x7f0000401000;
     context_area := 0x7f0008401000;
     desc_capacity_mask := 2 ^ 16 - 1;
     payload_buf_mask := 2 ^ 27 - 1 |}.

(** An event of type 2 with a 4-byte payload at the start of the payload
    buffer. *)
Definition sample_event : monad_event_descriptor :=
  {| seqno := 0; event_type := 2; payload_size := 4;
     record_epoch_nanos := 1700000000000000000;
     payload_buf_offset := 0; content_ext := (0, 0, 0, 0) |}.

(** A reader's memory with nothing in it. *)
Definition empty_local : local_memory :=
  {| loc_descriptors := fun _ => zero_descriptor; loc_bytes := fun _ => 0 |}.

(** A mapping after events 1 to 65536 have been recorded: slot [i] holds
    event [i + 1].  The payload buffer holds the byte [a mod 256] at address
    [a]; the window starts at [window]. *)
Definition sample_shm (window : Z) : shared_memory :=
  {| shm_control := {| last_seqno := 65536; next_payload_byte := 4;
                       buffer_window_start := window |};
     shm_descriptors := fun i => with_seqno (i + 1) sample_event;
     shm_bytes := fun a => a mod 256 |}.

(** A mapping nobody writes while the reader runs. *)
Definition quiet_env : environment := fun _ => sample_shm 0.

(** The window moves past the sample event just before the reader's access
    number [t0]. *)
Definition expiring_env (t0 : nat) : environment :=
  fun t => if (t <? t0)%nat then sample_shm 0 else sample_shm (2 ^ 24).

(** The recorder records [sample_event] as event 1 of a fresh ring; all
    three of its steps fall between the first and the second access of the
    reader. *)
Definition race_schedule : schedule :=
  fun t => match t with 1%nat => 3%nat | _ => 0%nat end.

Definition race_env : environment :=
  interleaving (2 ^ 16) (fresh_recorder [sample_event]) race_schedule.

(** The reader's output descriptor and destination buffer. *)
Definition out_ptr : ptr := 0x7ffc00000040.
Definition dst_ptr : ptr := 0x7ffc00001000.

(** An event whose payload starts five bytes into the second lap of the
    payload buffer. *)
Definition wrapped_event : monad_event_descriptor :=
  {| seqno := 70000; event_type := 2; payload_size := 4;
     record_epoch_nanos := 1700000000000000001;
     payload_buf_offset := 2 ^ 27 + 5; content_ext := (0, 0, 0, 0) |}.

(** The publication property for readers of the sample ring: in every
    interleaving with the recorder, a call that returns true hands out the
    descriptor the recorder produced for that sequence number. *)
Definition acquire_release_publication : Prop :=
  forall (events : list monad_event_descriptor) (sched : schedule) (s : Z)
         (event : ptr) (loc : local_memory),
    1 <= s <= Z.of_nat (List.length events) ->
    result (run (monad_event_ring_try_copy sample_ring s event)
                (interleaving (2 ^ 16) (fresh_recorder events) sched)
                0 loc) = true ->
    loc_descriptors
      (memory (run (monad_event_ring_try_copy sample_ring s event)
                   (interleaving (2 ^ 16) (fresh_recorder events) sched)
                   0 loc)) event
    = produced events s.

(** ** Accesses to the mapping

    What a reader computation reads of the mapping, in order. *)
Inductive access :=
| ReadsDescriptor (idx : Z)    (* plain read of [descriptors[idx]] *)
| LoadsSeqno (idx : Z)         (* atomic load of [descriptors[idx].seqno] *)
| LoadsWindowStart             (* atomic load of [buffer_window_start] *)
| ReadsByte (src : ptr).       (* plain read of the byte at [src] *)

Fixpoint accesses {A : Type} (m : reader A) (env : environment) (t : nat)
    : list access :=
  match m with
  | Ret _ => []
  | ReadDescriptor i k =>
      ReadsDescriptor i :: accesses (k (shm_descriptors (env t) i)) env (S t)
  | AtomicLoadSeqno i k =>
      LoadsSeqno i :: accesses (k (seqno (shm_descriptors (env t) i))) env (S t)
  | AtomicLoadWindowStart k =>
      LoadsWindowStart
      :: accesses (k (buffer_window_start (shm_control (env t)))) env (S t)
  | ReadByte p k => ReadsByte p :: accesses (k (shm_bytes (env t) p)) env (S t)
  | StoreDescriptor _ _ k => accesses k env t
  | StoreByte _ _ k => accesses k env t
  end.

(** The byte reads of a copy of [n] bytes from [src], in order. *)
Definition byte_reads (src : ptr) (n : nat) : list access :=
  map (fun i => ReadsByte (src + Z.of_nat i)) (seq 0 n).

(** The window start never moves back while the reader runs. *)
Definition window_nondecreasing (env : environment) : Prop :=
  forall t t' : nat, (t <= t')%nat ->
    buffer_window_start (shm_control (env t))
    <= buffer_window_start (shm_control (env t')).

(** Nothing is written to the mapping while the reader runs. *)
Definition quiescent (env : environment) (shm : shared_memory) : Prop :=
  forall t : nat, env t = shm.

(** [enum monad_event_record_error_type]: the values of the enumerators. *)
Definition record_error_type_value (e : monad_event_record_error_type) : Z :=
  match e with
  | MONAD_EVENT_RECORD_ERROR_NONE => 0
  | MONAD_EVENT_RECORD_ERROR_OVERFLOW_4GB => 1
  | MONAD_EVENT_RECORD_ERROR_OVERFLOW_EXPIRE => 2
  | MONAD_EVENT_RECORD_ERROR_MISSING_EVENT => 3
  end.

(** Members of [struct monad_event_record_error], as declared. *)
Definition monad_event_record_error_members : list member :=
  [ {| m_name := "error_type"%string;             m_size := 2; m_align := 16 |};
    {| m_name := "dropped_event_type"%string;     m_size := 2; m_align := 2 |};
    {| m_name := "truncated_payload_size"%string; m_size := 4; m_align := 4 |};
    {| m_name := "requested_payload_size"%string; m_size := 8; m_align := 8 |} ].


(** The mapping of [sample_shm] one lap later: slot [i] holds event
    [i + 1 + 65536]. *)
Definition lapped_env : environment :=
  fun _ =>
    {| shm_control := {| last_seqno := 131072; next_payload_byte := 4;
                         buffer_window_start := 0 |};
       shm_descriptors := fun i => with_seqno (i + 1 + 65536) sample_event;
       shm_bytes := fun a => a mod 256 |}.

(** The descriptor [d] with another [payload_buf_offset]. *)
Definition with_payload_buf_offset (off : Z) (d : monad_event_descriptor)
    : monad_event_descriptor :=
  {| seqno := seqno d;
     event_type := event_type d;
     payload_size := payload_size d;
     record_epoch_nanos := record_epoch_nanos d;
     payload_buf_offset := off;
     content_ext := content_ext d |}.

(** The members at [offs] follow one another from [from] on, without
    overlap, inside an image of [len] bytes. *)
Fixpoint laid_out (from : Z) (offs : list (string * Z * Z)) (len : Z) : Prop :=
  match offs with
  | [] => from <= len
  | (_, off, sz) :: rest => from <= off /\ 0 <= sz /\ laid_out (off + sz) rest len
  end.

(** * Properties *)

(** ** The reader monad *)

(** Projections of a run that has been computed. *)
Ltac run_simpl := cbn [result memory clock fst snd negb].
Tactic Notation "run_simpl" "in" "*" :=
  cbn [result memory clock fst snd negb] in *.

Lemma run_bind {A B : Type} (m : reader A) (f : A -> reader B)
    (env : environment) (t : nat) (loc : local_memory) :
  run (bind m f) env t loc =
  run (f (result (run m env t loc))) env (clock (run m env t loc))
      (memory (run m env t loc)).
Proof.
  revert t loc.
  induction m as [a | i k IH | i k IH | k IH | p k IH | p d k IH | p b k IH];
    intros t loc; simpl; auto.
Qed.

Lemma bind_ret_l {A B : Type} (a : A) (f : A -> reader B) :
  bind (Ret a) f = f a.
Proof. reflexivity. Qed.

Lemma run_bind_assoc {A B C : Type} (m : reader A) (f : A -> reader B)
    (g : B -> reader C) env t loc :
  run (bind (bind m f) g) env t loc =
  run (bind m (fun a => bind (f a) g)) env t loc.
Proof. now rewrite !run_bind. Qed.

(** ** Bit masks and wrap-around *)

Lemma land_mask_mod (x k : Z) :
  0 <= k -> Z.land x (2 ^ k - 1) = x mod 2 ^ k.
Proof.
  intros Hk.
  replace (2 ^ k - 1) with (Z.ones k).
  - now apply Z.land_ones.
  - rewrite Z.ones_equiv. lia.
Qed.

Lemma sub64_pred (s : Z) : is_uint64 s -> s <> 0 -> sub64 s 1 = s - 1.
Proof.
  unfold is_uint64, UINT64_MAX, sub64, wrap64. intros Hs Hnz.
  apply Z.mod_small. lia.
Qed.

(** The slot [monad_event_ring_try_copy] indexes, for a handle whose mask is
    the capacity minus one. *)
Lemma slot_index_mod (event_ring : monad_event_ring) (k s : Z) :
  0 <= k ->
  desc_capacity_mask event_ring = 2 ^ k - 1 ->
  is_uint64 s -> s <> 0 ->
  Z.land (sub64 s 1) (desc_capacity_mask event_ring) = (s - 1) mod 2 ^ k.
Proof.
  intros Hk Hmask Hs Hnz.
  rewrite Hmask, sub64_pred by assumption.
  now apply land_mask_mod.
Qed.

(** ** [memcpy] *)

Lemma run_memcpy_loop (n : nat) : forall (dst src : ptr) env t loc,
  result (run (memcpy_loop n dst src) env t loc) = tt
  /\ clock (run (memcpy_loop n dst src) env t loc) = (t + n)%nat
  /\ loc_descriptors (memory (run (memcpy_loop n dst src) env t loc))
     = loc_descriptors loc
  /\ (forall i, 0 <= i < Z.of_nat n ->
        loc_bytes (memory (run (memcpy_loop n dst src) env t loc)) (dst + i)
        = shm_bytes (env (t + Z.to_nat i)%nat) (src + i))
  /\ (forall a, ~ (dst <= a < dst + Z.of_nat n) ->
        loc_bytes (memory (run (memcpy_loop n dst src) env t loc)) a
        = loc_bytes loc a).
Proof.
  induction n as [| n IH]; intros dst src env t loc.
  - simpl. repeat split; auto; try lia.
  - cbn [memcpy_loop].
    change (run _ env t loc)
      with (run (memcpy_loop n (dst + 1) (src + 1)) env (S t)
                (store_byte dst (shm_bytes (env t) src) loc)).
    destruct (IH (dst + 1) (src + 1) env (S t)
                 (store_byte dst (shm_bytes (env t) src) loc))
      as (Hr & Hc & Hd & Hin & Hout).
    repeat split.
    + exact Hr.
    + rewrite Hc. lia.
    + rewrite Hd. reflexivity.
    + intros i Hi.
      destruct (Z.eq_dec i 0) as [-> | Hnz].
      * rewrite Hout by lia. simpl.
        rewrite !Z.add_0_r, Z.eqb_refl, Nat.add_0_r. reflexivity.
      * replace (dst + i) with (dst + 1 + (i - 1)) by lia.
        rewrite Hin by lia.
        replace (S t + Z.to_nat (i - 1))%nat with (t + Z.to_nat i)%nat by lia.
        f_equal. lia.
    + intros a Ha.
      rewrite Hout by lia. simpl.
      destruct (a =? dst) eqn:E; [apply Z.eqb_eq in E; lia | reflexivity].
Qed.

(** ** [monad_event_ring_payload_check] and [monad_event_ring_payload_peek] *)

(** C4.  [monad_event_ring_payload_check] returns true iff the descriptor's
    [payload_buf_offset] is at least the [buffer_window_start] it loads from
    the control block; it is one access to the mapping and leaves the
    reader's memory alone. *)
Theorem payload_check_window (event_ring : monad_event_ring)
    (event : monad_event_descriptor) (env : environment) (t : nat)
    (loc : local_memory) :
  let r := run (monad_event_ring_payload_check event_ring event) env t loc in
  (result r = true <->
     payload_buf_offset event >= buffer_window_start (shm_control (env t)))
  /\ (result r = false <->
        payload_buf_offset event < buffer_window_start (shm_control (env t)))
  /\ memory r = loc
  /\ clock r = S t.
Proof.
  cbn.
  destruct (Z.geb_spec (payload_buf_offset event)
              (buffer_window_start (shm_control (env t)))) as [Hge | Hlt].
  - repeat split; intros; try reflexivity; try discriminate; lia.
  - repeat split; intros; try reflexivity; try discriminate; lia.
Qed.

(** C5.  For a handle whose [payload_buf_mask] is [payload_buf_size - 1],
    with [payload_buf_size] a power of two, [monad_event_ring_payload_peek]
    returns [payload_buf + (payload_buf_offset mod payload_buf_size)]. *)
Theorem payload_peek_mod (event_ring : monad_event_ring)
    (sz : monad_event_ring_size) (event : monad_event_descriptor) (k : Z) :
  0 <= k ->
  payload_buf_size sz = 2 ^ k ->
  payload_buf_mask event_ring = payload_buf_size sz - 1 ->
  monad_event_ring_payload_peek event_ring event =
  payload_buf event_ring + payload_buf_offset event mod payload_buf_size sz.
Proof.
  intros Hk Hsz Hmask. unfold monad_event_ring_payload_peek.
  rewrite Hmask, Hsz. f_equal. now apply land_mask_mod.
Qed.

(** ** Layout *)

Lemma length_le_bytes (n : nat) : forall v, List.length (le_bytes n v) = n.
Proof. induction n as [| n IH]; intros v; simpl; [reflexivity | now rewrite IH]. Qed.

Lemma length_fit (n : nat) (v : list Z) : List.length (fit n v) = n.
Proof.
  unfold fit, zeros.
  rewrite length_firstn, length_app, repeat_length. lia.
Qed.

Lemma length_place_members (offs : list (string * Z * Z)) :
  forall (vals : list (list Z)) (image : list Z),
  Forall (member_fits (List.length image)) offs ->
  List.length (place_members offs vals image) = List.length image.
Proof.
  induction offs as [| [[nm off] sz] offs IH]; intros vals image Hfit;
    [reflexivity |].
  destruct vals as [| v vals]; [reflexivity |].
  inversion Hfit as [| ? ? (Hoff & Hsz & Hend) Hrest]; subst.
  cbn [fst snd] in *. cbn [place_members].
  assert (Hlen : List.length (firstn (Z.to_nat off) image
                              ++ fit (Z.to_nat sz) v
                              ++ skipn (Z.to_nat (off + sz)) image)
                 = List.length image).
  { rewrite !length_app, length_firstn, length_fit, length_skipn. lia. }
  rewrite IH; [exact Hlen |].
  rewrite Hlen. exact Hrest.
Qed.

Lemma length_encode_header (h : monad_event_ring_header) :
  List.length (encode_header h) = 192%nat.
Proof.
  unfold encode_header, struct_image.
  rewrite length_place_members; [reflexivity |].
  repeat (apply Forall_cons; [unfold member_fits; vm_compute; intuition discriminate |]).
  apply Forall_nil.
Qed.

Lemma le_value_le_bytes (n : nat) : forall v,
  le_value (le_bytes n v) = v mod 256 ^ Z.of_nat n.
Proof.
  induction n as [| n IH]; intros v.
  - simpl. now rewrite Z.mod_1_r.
  - cbn [le_bytes le_value]. rewrite IH.
    rewrite Nat2Z.inj_succ, Z.pow_succ_r by lia.
    rewrite Z.rem_mul_r by lia. reflexivity.
Qed.

Lemma length_encode_descriptor (d : monad_event_descriptor) :
  List.length (encode_descriptor d) = 64%nat.
Proof.
  destruct d as [s ty ps ep off [[[e0 e1] e2] e3]]. reflexivity.
Qed.

(** C6.  [struct monad_event_descriptor] is 64 bytes with 64-byte alignment;
    [seqno] is its first 8 bytes, followed by the 16-bit [event_type], 16
    reserved bits, the 32-bit [payload_size], the 64-bit
    [record_epoch_nanos], the 64-bit [payload_buf_offset] and the four
    64-bit [content_ext] words, with no padding in between. *)
Theorem descriptor_layout :
  sizeof_struct monad_event_descriptor_members = 64
  /\ alignof_struct monad_event_descriptor_members = 64
  /\ member_offsets 0 monad_event_descriptor_members =
       [ ("seqno"%string, 0, 8);
         ("event_type"%string, 8, 2);
         (""%string, 10, 2);
         ("payload_size"%string, 12, 4);
         ("record_epoch_nanos"%string, 16, 8);
         ("payload_buf_offset"%string, 24, 8);
         ("content_ext"%string, 32, 32) ]
  /\ forall d : monad_event_descriptor,
       List.length (encode_descriptor d) = 64%nat
       /\ slice 0 8 (encode_descriptor d) = le_bytes 8 (seqno d)
       /\ le_value (slice 0 8 (encode_descriptor d)) = seqno d mod 2 ^ 64
       /\ slice 8 2 (encode_descriptor d) = le_bytes 2 (event_type d)
       /\ slice 10 2 (encode_descriptor d) = [0; 0]
       /\ slice 12 4 (encode_descriptor d) = le_bytes 4 (payload_size d)
       /\ slice 16 8 (encode_descriptor d) = le_bytes 8 (record_epoch_nanos d)
       /\ slice 24 8 (encode_descriptor d) = le_bytes 8 (payload_buf_offset d)
       /\ slice 32 32 (encode_descriptor d) =
            le_bytes 8 (fst (fst (fst (content_ext d))))
            ++ le_bytes 8 (snd (fst (fst (content_ext d))))
            ++ le_bytes 8 (snd (fst (content_ext d)))
            ++ le_bytes 8 (snd (content_ext d)).
Proof.
  split; [reflexivity |].
  split; [reflexivity |].
  split; [reflexivity |].
  intros d.
  assert (Hseq : slice 0 8 (encode_descriptor d) = le_bytes 8 (seqno d)).
  { destruct d as [s ty ps ep off [[[e0 e1] e2] e3]]. reflexivity. }
  split; [apply length_encode_descriptor |].
  split; [exact Hseq |].
  split; [rewrite Hseq; apply (le_value_le_bytes 8) |].
  destruct d as [s ty ps ep off [[[e0 e1] e2] e3]].
  repeat split; reflexivity.
Qed.

(** ** [monad_event_ring_try_copy] *)

Lemma run_try_copy_zero (event_ring : monad_event_ring) (event : ptr)
    env t loc :
  run (monad_event_ring_try_copy event_ring 0 event) env t loc
  = (false, loc, t).
Proof. reflexivity. Qed.

Lemma run_try_copy_nonzero (event_ring : monad_event_ring) (s : Z)
    (event : ptr) env t loc :
  s <> 0 ->
  run (monad_event_ring_try_copy event_ring s event) env t loc
  = (seqno (shm_descriptors (env (S t))
              (Z.land (sub64 s 1) (desc_capacity_mask event_ring))) =? s,
     store_descriptor event
       (shm_descriptors (env t)
          (Z.land (sub64 s 1) (desc_capacity_mask event_ring))) loc,
     S (S t)).
Proof.
  intros Hnz. unfold monad_event_ring_try_copy.
  destruct (s =? 0) eqn:E; [apply Z.eqb_eq in E; contradiction |].
  cbn.
  destruct (seqno _ =? s); reflexivity.
Qed.

Lemma store_descriptor_same (p : ptr) (d : monad_event_descriptor) loc :
  loc_descriptors (store_descriptor p d loc) p = d.
Proof. simpl. now rewrite Z.eqb_refl. Qed.

(** C2.  For a handle whose [desc_capacity_mask] is the (power of two)
    descriptor capacity minus one, and every sequence number [s]:
    [monad_event_ring_try_copy] returns false when [s = 0]; otherwise it
    copies the 64 bytes of slot [(s - 1) mod descriptor_capacity] to the
    output descriptor, then loads the [seqno] of that slot, and returns true
    exactly when the loaded value is [s], false when it differs. *)
Theorem try_copy_spec (event_ring : monad_event_ring)
    (sz : monad_event_ring_size) (k s : Z) (event : ptr)
    (env : environment) (t : nat) (loc : local_memory) :
  0 <= k ->
  descriptor_capacity sz = 2 ^ k ->
  desc_capacity_mask event_ring = descriptor_capacity sz - 1 ->
  is_uint64 s ->
  let r := run (monad_event_ring_try_copy event_ring s event) env t loc in
  let slot := (s - 1) mod descriptor_capacity sz in
  (s = 0 -> result r = false)
  /\ (s <> 0 ->
        memory r = store_descriptor event (shm_descriptors (env t) slot) loc
        /\ encode_descriptor (loc_descriptors (memory r) event)
           = encode_descriptor (shm_descriptors (env t) slot)
        /\ List.length (encode_descriptor (shm_descriptors (env t) slot)) = 64%nat
        /\ clock r = S (S t)
        /\ (result r = true <-> seqno (shm_descriptors (env (S t)) slot) = s)
        /\ (result r = false <-> seqno (shm_descriptors (env (S t)) slot) <> s)).
Proof.
  intros Hk Hcap Hmask Hs r slot. split.
  - intros ->. reflexivity.
  - intros Hnz. subst r.
    rewrite run_try_copy_nonzero by assumption.
    rewrite Hcap in Hmask.
    rewrite (slot_index_mod event_ring k s Hk Hmask Hs Hnz).
    subst slot. rewrite Hcap. run_simpl.
    split; [reflexivity |].
    split; [now rewrite store_descriptor_same |].
    split; [apply length_encode_descriptor |].
    split; [reflexivity |].
    split.
    + apply Z.eqb_eq.
    + rewrite <- Z.eqb_neq.
      destruct (seqno _ =? s); split; intros; congruence.
Qed.

(** ** [monad_event_ring_payload_memcpy] *)

Lemma run_payload_check (event_ring : monad_event_ring)
    (event : monad_event_descriptor) env t loc :
  run (monad_event_ring_payload_check event_ring event) env t loc
  = (payload_buf_offset event >=? buffer_window_start (shm_control (env t)),
     loc, S t).
Proof. reflexivity. Qed.

Lemma run_memcpy (dst src : ptr) (n : Z) env t loc :
  clock (run (memcpy dst src n) env t loc) = (t + Z.to_nat n)%nat
  /\ loc_descriptors (memory (run (memcpy dst src n) env t loc))
     = loc_descriptors loc
  /\ (forall i, 0 <= i < n ->
        loc_bytes (memory (run (memcpy dst src n) env t loc)) (dst + i)
        = shm_bytes (env (t + Z.to_nat i)%nat) (src + i))
  /\ (forall a, ~ (dst <= a < dst + n) ->
        loc_bytes (memory (run (memcpy dst src n) env t loc)) a
        = loc_bytes loc a).
Proof.
  unfold memcpy.
  destruct (run_memcpy_loop (Z.to_nat n) dst src env t loc)
    as (_ & Hc & Hd & Hin & Hout).
  repeat split; auto.
  - intros i Hi. apply Hin. lia.
  - intros a Ha. apply Hout. lia.
Qed.

(** The three ways through [monad_event_ring_payload_memcpy]. *)
Lemma run_payload_memcpy (event_ring : monad_event_ring)
    (event : monad_event_descriptor) (dst : ptr) (n : Z) env t loc :
  let src := monad_event_ring_payload_peek event_ring event in
  let copied := memory (run (memcpy dst src n) env (S t) loc) in
  let t' := (S t + Z.to_nat n)%nat in
  run (monad_event_ring_payload_memcpy event_ring event dst n) env t loc
  = if negb (result (run (monad_event_ring_payload_check event_ring event)
                         env t loc))
    then (nullptr, loc, S t)
    else if negb (result (run (monad_event_ring_payload_check event_ring event)
                              env t' copied))
    then (nullptr, copied, S t')
    else (dst, copied, S t').
Proof.
  intros src copied t'.
  unfold monad_event_ring_payload_memcpy.
  rewrite run_bind, !run_payload_check. run_simpl.
  destruct (payload_buf_offset event
              >=? buffer_window_start (shm_control (env t))); cbn [negb].
  2: reflexivity.
  rewrite run_bind.
  fold src.
  destruct (run_memcpy dst src n env (S t) loc) as (Hc & _).
  rewrite Hc. fold t'. fold copied.
  rewrite run_bind, run_payload_check. run_simpl.
  destruct (payload_buf_offset event
              >=? buffer_window_start (shm_control (env t'))); reflexivity.
Qed.

(** C3.  [monad_event_ring_payload_memcpy] follows the double-check
    protocol.  With [live] the result of [monad_event_ring_payload_check]
    before the copy and [live'] its result after the [n] bytes have been
    copied: it returns null without copying when [live] is false;
    otherwise it copies the [n] bytes at the address
    [monad_event_ring_payload_peek] gives to [dst], reading each of them
    at some access between the two checks and writing nothing else, and
    then returns null when [live'] is false and [dst] when it is true; so,
    for a destination that is not null, the result is null iff one of the
    two checks reports expiration. *)
Theorem payload_memcpy_double_check (event_ring : monad_event_ring)
    (event : monad_event_descriptor) (dst : ptr) (n : Z)
    (env : environment) (t : nat) (loc : local_memory) :
  dst <> nullptr ->
  let r := run (monad_event_ring_payload_memcpy event_ring event dst n)
               env t loc in
  let live :=
    result (run (monad_event_ring_payload_check event_ring event) env t loc) in
  let live' :=
    result (run (monad_event_ring_payload_check event_ring event) env
                (S t + Z.to_nat n) loc) in
  let src := monad_event_ring_payload_peek event_ring event in
  (live = false -> result r = nullptr /\ memory r = loc /\ clock r = S t)
  /\ (live = true -> clock r = S (S t + Z.to_nat n))
  /\ (live = true ->
        forall i, 0 <= i < n ->
          exists u : nat,
            (t < u < S t + Z.to_nat n)%nat
            /\ loc_bytes (memory r) (dst + i) = shm_bytes (env u) (src + i))
  /\ (live = true ->
        loc_descriptors (memory r) = loc_descriptors loc
        /\ forall a, ~ (dst <= a < dst + n) ->
             loc_bytes (memory r) a = loc_bytes loc a)
  /\ (live = true -> live' = false -> result r = nullptr)
  /\ (live = true -> live' = true -> result r = dst)
  /\ (result r = dst <-> live = true /\ live' = true)
  /\ (result r = nullptr <-> live = false \/ live' = false).
Proof.
  intros Hdst. cbv zeta.
  rewrite run_payload_memcpy, !run_payload_check.
  run_simpl.
  destruct (run_memcpy dst (monad_event_ring_payload_peek event_ring event)
              n env (S t) loc) as (_ & Hd & Hin & Hout).
  destruct (payload_buf_offset event
              >=? buffer_window_start (shm_control (env t)));
    destruct (payload_buf_offset event
              >=? buffer_window_start (shm_control (env (S t + Z.to_nat n)%nat)));
    run_simpl;
    repeat match goal with
           | |- _ /\ _ => split
           | |- _ <-> _ => split
           end;
    intros;
    try discriminate; try reflexivity; try congruence;
    try (eexists; split; [| now apply Hin]; lia);
    try (split; [exact Hd | exact Hout]);
    try (repeat split; reflexivity);
    try (left; reflexivity); try (right; reflexivity);
    match goal with
    | H : _ \/ _ |- _ => destruct H; discriminate
    | H : _ /\ _ |- _ => destruct H; discriminate
    end.
Qed.

(** C9.  A successful [monad_event_ring_payload_memcpy] copies exactly [n]
    bytes, starting at [payload_buf + (payload_buf_offset mod
    payload_buf_size)]: byte [i] of the destination is the byte the mapping
    holds at that address plus [i] when it is read, for every [i < n], and
    nothing else of the reader's memory changes.  [payload_size] plays no
    part: the bytes at and after index [payload_size] are copied like the
    others, and a descriptor with another [payload_size] gives the same
    run. *)
Theorem payload_memcpy_copies_n (event_ring : monad_event_ring)
    (sz : monad_event_ring_size) (event : monad_event_descriptor)
    (dst : ptr) (n k : Z) (env : environment) (t : nat) (loc : local_memory) :
  0 <= k ->
  payload_buf_size sz = 2 ^ k ->
  payload_buf_mask event_ring = payload_buf_size sz - 1 ->
  let r := run (monad_event_ring_payload_memcpy event_ring event dst n)
               env t loc in
  let src := payload_buf event_ring
             + payload_buf_offset event mod payload_buf_size sz in
  result r <> nullptr ->
  result r = dst
  /\ (forall i, 0 <= i < n ->
        loc_bytes (memory r) (dst + i)
        = shm_bytes (env (S t + Z.to_nat i)%nat) (src + i))
  /\ (forall a, ~ (dst <= a < dst + n) ->
        loc_bytes (memory r) a = loc_bytes loc a)
  /\ loc_descriptors (memory r) = loc_descriptors loc
  /\ (forall i, 0 <= i -> payload_size event <= i < n ->
        loc_bytes (memory r) (dst + i)
        = shm_bytes (env (S t + Z.to_nat i)%nat) (src + i))
  /\ (forall ps,
        run (monad_event_ring_payload_memcpy event_ring
               (with_payload_size ps event) dst n) env t loc = r).
Proof.
  intros Hk Hsz Hmask r src Hok.
  assert (Hsrc : monad_event_ring_payload_peek event_ring event = src).
  { unfold monad_event_ring_payload_peek, src.
    rewrite Hmask, Hsz, land_mask_mod by assumption. reflexivity. }
  assert (Hps : forall ps,
            run (monad_event_ring_payload_memcpy event_ring
                   (with_payload_size ps event) dst n) env t loc = r).
  { intros ps. subst r. rewrite !run_payload_memcpy. reflexivity. }
  subst r. rewrite run_payload_memcpy in *. rewrite Hsrc in *.
  rewrite !run_payload_check in *. run_simpl in *.
  destruct (run_memcpy dst src n env (S t) loc) as (_ & Hd & Hin & Hout).
  destruct (payload_buf_offset event
              >=? buffer_window_start (shm_control (env t)));
    run_simpl in *; [| now elim Hok].
  destruct (payload_buf_offset event
              >=? buffer_window_start (shm_control (env (S t + Z.to_nat n)%nat)));
    run_simpl in *; [| now elim Hok].
  repeat split; auto.
  intros i Hi0 Hi. apply Hin. lia.
Qed.

(** ** What a failed call leaves behind *)

(** C10 (as amended).  [monad_event_ring_payload_memcpy] is not atomic in
    [dst] on failure: when it returns null because the first window check
    fails, the reader's memory is unchanged; when it returns null because
    the check after the copy fails, the [n] bytes at [dst] have already been
    overwritten.  Likewise [monad_event_ring_try_copy], called with a
    sequence number other than zero, overwrites the caller's output
    descriptor with the slot whatever it returns, so also when it returns
    false because the loaded [seqno] differs; called with sequence number
    zero it returns false and leaves the output descriptor as it was. *)
Theorem failure_leaves_output (event_ring : monad_event_ring)
    (event : monad_event_descriptor) (dst : ptr) (n s : Z) (out : ptr)
    (env : environment) (t : nat) (loc : local_memory) :
  let r := run (monad_event_ring_payload_memcpy event_ring event dst n)
               env t loc in
  let live :=
    result (run (monad_event_ring_payload_check event_ring event) env t loc) in
  let live' :=
    result (run (monad_event_ring_payload_check event_ring event) env
                (S t + Z.to_nat n) loc) in
  let src := monad_event_ring_payload_peek event_ring event in
  let c := run (monad_event_ring_try_copy event_ring s out) env t loc in
  let slot := Z.land (sub64 s 1) (desc_capacity_mask event_ring) in
  (live = false -> result r = nullptr /\ memory r = loc)
  /\ (live = true -> live' = false ->
        result r = nullptr
        /\ forall i, 0 <= i < n ->
             loc_bytes (memory r) (dst + i)
             = shm_bytes (env (S t + Z.to_nat i)%nat) (src + i))
  /\ (s <> 0 ->
        loc_descriptors (memory c) out = shm_descriptors (env t) slot
        /\ (result c = false <-> seqno (shm_descriptors (env (S t)) slot) <> s))
  /\ (s = 0 -> result c = false /\ memory c = loc).
Proof.
  cbv zeta.
  rewrite run_payload_memcpy, !run_payload_check.
  run_simpl.
  destruct (run_memcpy dst (monad_event_ring_payload_peek event_ring event)
              n env (S t) loc) as (_ & _ & Hin & _).
  split; [| split; [| split]].
  - intros Hlive. rewrite Hlive. split; reflexivity.
  - intros Hlive Hlive'. rewrite Hlive, Hlive'. cbn [negb result memory fst snd].
    split; [reflexivity | exact Hin].
  - intros Hnz. rewrite run_try_copy_nonzero by assumption.
    cbn [result memory fst snd].
    split; [apply store_descriptor_same |].
    rewrite <- Z.eqb_neq. reflexivity.
  - intros ->. split; reflexivity.
Qed.

(** At sequence number zero [monad_event_ring_try_copy] returns false and
    the output descriptor is not the slot [(0 - 1) & mask]: it is what it
    was before the call. *)
Lemma try_copy_zero_keeps_output :
  result (run (monad_event_ring_try_copy sample_ring 0 out_ptr)
              quiet_env 0 empty_local) = false
  /\ loc_descriptors
       (memory (run (monad_event_ring_try_copy sample_ring 0 out_ptr)
                    quiet_env 0 empty_local)) out_ptr
     = zero_descriptor
  /\ shm_descriptors (quiet_env 0%nat)
       (Z.land (sub64 0 1) (desc_capacity_mask sample_ring))
     = with_seqno 65536 sample_event
  /\ loc_descriptors
       (memory (run (monad_event_ring_try_copy sample_ring 0 out_ptr)
                    quiet_env 0 empty_local)) out_ptr
     <> shm_descriptors (quiet_env 0%nat)
          (Z.land (sub64 0 1) (desc_capacity_mask sample_ring)).
Proof.
  repeat split; try reflexivity.
  intros H. apply (f_equal seqno) in H. vm_compute in H. discriminate.
Qed.

Lemma failure_leaves_output_witness :
  result (run (monad_event_ring_payload_memcpy sample_ring
                 (with_seqno 65536 sample_event) dst_ptr 4)
              (expiring_env 2) 0 empty_local) = nullptr
  /\ loc_bytes
       (memory (run (monad_event_ring_payload_memcpy sample_ring
                       (with_seqno 65536 sample_event) dst_ptr 4)
                    (expiring_env 2) 0 empty_local)) (dst_ptr + 3)
     = (payload_buf sample_ring + 3) mod 256
  /\ loc_descriptors
       (memory (run (monad_event_ring_try_copy sample_ring 65541 out_ptr)
                    (expiring_env 2) 0 empty_local)) out_ptr
     = with_seqno 5 sample_event
  /\ result (run (monad_event_ring_try_copy sample_ring 65541 out_ptr)
                 (expiring_env 2) 0 empty_local) = false.
Proof.
  pose proof (failure_leaves_output sample_ring
                (with_seqno 65536 sample_event) dst_ptr 4 65541 out_ptr
                (expiring_env 2) 0 empty_local) as H.
  cbv zeta in H. destruct H as (_ & Hsecond & Hcopy & _).
  destruct (Hsecond eq_refl eq_refl) as (Hnull & Hbytes).
  destruct Hcopy as (Hout & Hfalse); [discriminate |].
  split; [exact Hnull |].
  split; [rewrite Hbytes by lia; reflexivity |].
  split; [rewrite Hout; reflexivity |].
  apply Hfalse. vm_compute. discriminate.
Defined.

(** ** Publication *)

(** What [monad_event_ring_try_copy] hands out when it returns true is the
    slot as it was at the copy, while the sequence number it compares is
    the one the slot has at the later load. *)
Lemma try_copy_true_copy_is_earlier (event_ring : monad_event_ring) (s : Z)
    (event : ptr) env t loc :
  let slot := Z.land (sub64 s 1) (desc_capacity_mask event_ring) in
  result (run (monad_event_ring_try_copy event_ring s event) env t loc) = true ->
  s <> 0
  /\ seqno (shm_descriptors (env (S t)) slot) = s
  /\ loc_descriptors
       (memory (run (monad_event_ring_try_copy event_ring s event) env t loc))
       event
     = shm_descriptors (env t) slot.
Proof.
  intros slot H.
  destruct (Z.eq_dec s 0) as [-> | Hnz]; [discriminate H |].
  rewrite run_try_copy_nonzero in * by assumption.
  cbn [result memory fst snd] in *.
  split; [assumption |].
  split; [now apply Z.eqb_eq | apply store_descriptor_same].
Qed.

(** When the recorder does not touch the slot between the copy and the
    load, a true result does come with the published descriptor. *)
Lemma try_copy_quiescent (event_ring : monad_event_ring) (s : Z)
    (event : ptr) env t loc :
  let slot := Z.land (sub64 s 1) (desc_capacity_mask event_ring) in
  shm_descriptors (env t) slot = shm_descriptors (env (S t)) slot ->
  result (run (monad_event_ring_try_copy event_ring s event) env t loc) = true ->
  loc_descriptors
    (memory (run (monad_event_ring_try_copy event_ring s event) env t loc))
    event
  = shm_descriptors (env (S t)) slot
  /\ seqno (loc_descriptors
       (memory (run (monad_event_ring_try_copy event_ring s event) env t loc))
       event) = s.
Proof.
  intros slot Hq H.
  destruct (try_copy_true_copy_is_earlier event_ring s event env t loc H)
    as (_ & Hs & Hc).
  fold slot in Hs, Hc. rewrite Hc, Hq. split; [reflexivity | exact Hs].
Qed.

(** The three steps of the recorder on a fresh ring publish event 1. *)
Lemma recorder_publishes_first (body : monad_event_descriptor)
    (rest : list monad_event_descriptor) :
  let r := recorder_run (2 ^ 16) 3 (fresh_recorder (body :: rest)) in
  rec_pc r = Idle
  /\ rec_pending r = rest
  /\ last_seqno (shm_control (rec_shm r)) = 1
  /\ shm_descriptors (rec_shm r) 0 = produced (body :: rest) 1.
Proof. repeat split. Qed.

(** C1, at the failing interleaving.  The ring is fresh and the recorder
    records [sample_event] as event 1.  The reader calls
    [monad_event_ring_try_copy] for sequence number 1; its copy of slot 0
    runs before the recorder starts, its load of [seqno] after the recorder
    has published.  The load returns 1 and the slot then holds the
    recorder's descriptor, the call returns true, and the descriptor handed
    out is the all-zero slot of the fresh ring, not the descriptor the
    recorder produced. *)
Theorem try_copy_publication_race :
  seqno (shm_descriptors (race_env 1%nat) ((1 - 1) mod 2 ^ 16)) = 1
  /\ shm_descriptors (race_env 1%nat) ((1 - 1) mod 2 ^ 16)
     = produced [sample_event] 1
  /\ result (run (monad_event_ring_try_copy sample_ring 1 out_ptr)
                 race_env 0 empty_local) = true
  /\ loc_descriptors
       (memory (run (monad_event_ring_try_copy sample_ring 1 out_ptr)
                    race_env 0 empty_local)) out_ptr
     = zero_descriptor
  /\ event_type
       (loc_descriptors
          (memory (run (monad_event_ring_try_copy sample_ring 1 out_ptr)
                       race_env 0 empty_local)) out_ptr)
     <> event_type (produced [sample_event] 1)
  /\ encode_descriptor
       (loc_descriptors
          (memory (run (monad_event_ring_try_copy sample_ring 1 out_ptr)
                       race_env 0 empty_local)) out_ptr)
     <> encode_descriptor (produced [sample_event] 1).
Proof.
  repeat split; try reflexivity.
  - vm_compute. discriminate.
  - vm_compute. discriminate.
Qed.

(** The publication property does not hold of
    [monad_event_ring_try_copy]: the interleaving above refutes it. *)
Lemma publication_fails_under_race : ~ acquire_release_publication.
Proof.
  intros Hpub.
  specialize (Hpub [sample_event] race_schedule 1 out_ptr empty_local).
  assert (Hrange : 1 <= 1 <= Z.of_nat (List.length [sample_event]))
    by (simpl; lia).
  specialize (Hpub Hrange eq_refl).
  apply (f_equal event_type) in Hpub. vm_compute in Hpub. discriminate.
Qed.

(** ** Size limits *)

Lemma in_range_spec (lo hi x : Z) :
  in_range lo hi x = true <-> lo <= x <= hi.
Proof.
  unfold in_range. rewrite andb_true_iff, !Z.leb_le. tauto.
Qed.

(** C7.  [monad_event_ring_init_size] produces a size structure exactly for
    a descriptors shift in [16, 32] and a payload buffer shift in [27, 40];
    the structure then has [descriptor_capacity = 2^descriptors_shift] and
    [payload_buf_size = 2^payload_buf_shift]; every other pair of shifts
    fails with [InvalidSize]. *)
Theorem init_size_bounds
    (large_page_size descriptors_shift payload_buf_shift context_large_pages : Z) :
  let r := monad_event_ring_init_size large_page_size descriptors_shift
             payload_buf_shift context_large_pages in
  ((exists sz, r = inr sz) <->
     16 <= descriptors_shift <= 32 /\ 27 <= payload_buf_shift <= 40)
  /\ (r = inl InvalidSize <->
        ~ (16 <= descriptors_shift <= 32 /\ 27 <= payload_buf_shift <= 40))
  /\ (forall sz, r = inr sz ->
        descriptor_capacity sz = 2 ^ descriptors_shift
        /\ payload_buf_size sz = 2 ^ payload_buf_shift
        /\ context_area_size sz = context_large_pages * large_page_size).
Proof.
  cbv zeta. unfold monad_event_ring_init_size.
  pose proof (in_range_spec MONAD_EVENT_MIN_DESCRIPTORS_SHIFT
                MONAD_EVENT_MAX_DESCRIPTORS_SHIFT descriptors_shift) as Hd.
  pose proof (in_range_spec MONAD_EVENT_MIN_PAYLOAD_BUF_SHIFT
                MONAD_EVENT_MAX_PAYLOAD_BUF_SHIFT payload_buf_shift) as Hp.
  unfold MONAD_EVENT_MIN_DESCRIPTORS_SHIFT, MONAD_EVENT_MAX_DESCRIPTORS_SHIFT,
    MONAD_EVENT_MIN_PAYLOAD_BUF_SHIFT, MONAD_EVENT_MAX_PAYLOAD_BUF_SHIFT in *.
  destruct (in_range 16 32 descriptors_shift);
    destruct (in_range 27 40 payload_buf_shift); cbn [negb].
  - assert (16 <= descriptors_shift <= 32) by (now apply Hd).
    assert (27 <= payload_buf_shift <= 40) by (now apply Hp).
    split; [split; [tauto | eauto] |].
    split; [split; [discriminate | tauto] |].
    intros sz Hsz. injection Hsz as <-. cbn.
    rewrite !Z.shiftl_1_l. auto.
  - assert (~ 27 <= payload_buf_shift <= 40)
      by (intros C; apply Hp in C; discriminate).
    split; [split; [intros [sz Hsz]; discriminate | tauto] |].
    split; [split; [tauto | reflexivity] |].
    intros sz Hsz. discriminate.
  - assert (~ 16 <= descriptors_shift <= 32)
      by (intros C; apply Hd in C; discriminate).
    split; [split; [intros [sz Hsz]; discriminate | tauto] |].
    split; [split; [tauto | reflexivity] |].
    intros sz Hsz. discriminate.
  - assert (~ 16 <= descriptors_shift <= 32)
      by (intros C; apply Hd in C; discriminate).
    split; [split; [intros [sz Hsz]; discriminate | tauto] |].
    split; [split; [tauto | reflexivity] |].
    intros sz Hsz. discriminate.
Qed.

(** ** Header magic *)

Lemma bytes_eqb_eq (a : list Z) : forall b, bytes_eqb a b = true <-> a = b.
Proof.
  induction a as [| x a IH]; intros [| y b]; simpl;
    try (split; [discriminate | discriminate]); try tauto.
  rewrite andb_true_iff, Z.eqb_eq, IH.
  split; [intros [-> ->]; reflexivity | intros H; injection H; auto].
Qed.

Lemma file_write_at (f : file) (off : Z) (bs : list Z) (i : nat) :
  (i < List.length bs)%nat ->
  file_write f off bs (off + Z.of_nat i) = nth i bs 0.
Proof.
  intros Hi. unfold file_write.
  replace ((off <=? off + Z.of_nat i)
           && (off + Z.of_nat i <? off + Z.of_nat (List.length bs)))
    with true.
  - f_equal. lia.
  - symmetry. apply andb_true_iff. split; [apply Z.leb_le | apply Z.ltb_lt]; lia.
Qed.

Lemma skipn_cons_nth (bs : list Z) : forall a : nat,
  (a < List.length bs)%nat -> skipn a bs = nth a bs 0 :: skipn (S a) bs.
Proof.
  induction bs as [| b bs IH]; intros a Ha; [simpl in Ha; lia |].
  destruct a as [| a]; [reflexivity |].
  simpl in Ha. cbn [skipn nth]. rewrite IH by lia. reflexivity.
Qed.

Lemma file_read_write_from (f : file) (off : Z) (bs : list Z) (n : nat) :
  forall a : nat,
  (a + n <= List.length bs)%nat ->
  map (fun i => file_write f off bs (off + Z.of_nat i)) (seq a n)
  = firstn n (skipn a bs).
Proof.
  induction n as [| n IH]; intros a Ha; [reflexivity |].
  cbn [seq map]. rewrite file_write_at, IH by lia.
  rewrite (skipn_cons_nth bs a) by lia. reflexivity.
Qed.

Lemma file_read_write (f : file) (off : Z) (bs : list Z) (n : nat) :
  (n <= List.length bs)%nat ->
  file_read (file_write f off bs) off n = firstn n bs.
Proof.
  intros Hn. unfold file_read.
  now rewrite file_read_write_from by lia.
Qed.

(** C8.  The header magic is the six ASCII octets R I N G 0 1: that is the
    value of [MONAD_EVENT_RING_HEADER_VERSION], whose last two octets are
    the version digits 0 1; [magic] is the member at offset 0 of the
    header, six bytes long; the header that file initialization writes
    starts with these octets, and mapping goes through only for a file
    range that starts with them ([BadMagic] otherwise). *)
Theorem header_magic :
  MONAD_EVENT_RING_HEADER_VERSION = [82; 73; 78; 71; 48; 49]
  /\ MONAD_EVENT_RING_HEADER_VERSION
     = map byte_of_char (list_ascii_of_string "RING01")
  /\ slice 4 2 MONAD_EVENT_RING_HEADER_VERSION
     = map byte_of_char ["0"; "1"]%char
  /\ hd_error (member_offsets 0 monad_event_ring_header_members)
     = Some ("magic"%string, 0, 6)
  /\ (forall sz ct hash,
        slice 0 6 (encode_header (fresh_header sz ct hash))
        = MONAD_EVENT_RING_HEADER_VERSION)
  /\ (forall sz ct hash ring ring_offset ring',
        monad_event_ring_init_file sz ct hash ring ring_offset = inr ring' ->
        file_read ring' ring_offset 6 = MONAD_EVENT_RING_HEADER_VERSION)
  /\ (forall prot ring ring_offset expected base,
        file_read ring ring_offset 6 <> MONAD_EVENT_RING_HEADER_VERSION ->
        monad_event_ring_mmap prot ring ring_offset expected base
        = inl BadMagic)
  /\ (forall prot ring ring_offset expected base event_ring,
        monad_event_ring_mmap prot ring ring_offset expected base
        = inr event_ring ->
        file_read ring ring_offset 6 = MONAD_EVENT_RING_HEADER_VERSION).
Proof.
  split; [reflexivity |].
  split; [reflexivity |].
  split; [reflexivity |].
  split; [reflexivity |].
  split; [intros; reflexivity |].
  split; [| split].
  - intros sz ct hash ring ring_offset ring' H.
    unfold monad_event_ring_init_file in H.
    destruct (bytes_eqb _ _); [discriminate |].
    injection H as <-.
    rewrite file_read_write; [reflexivity |].
    rewrite length_encode_header. lia.
  - intros prot ring ring_offset expected base Hne.
    unfold monad_event_ring_mmap.
    destruct (bytes_eqb _ MONAD_EVENT_RING_HEADER_VERSION) eqn:E.
    + apply bytes_eqb_eq in E. contradiction.
    + reflexivity.
  - intros prot ring ring_offset expected base event_ring H.
    unfold monad_event_ring_mmap in H.
    destruct (bytes_eqb _ MONAD_EVENT_RING_HEADER_VERSION) eqn:E.
    + now apply bytes_eqb_eq in E.
    + discriminate.
Qed.

(** ** Handles produced by mapping *)

Lemma is_pow2_shift_spec (lo hi x : Z) :
  0 <= lo ->
  is_pow2_shift lo hi x = true -> exists k, lo <= k <= hi /\ x = 2 ^ k.
Proof.
  unfold is_pow2_shift. intros Hlo H.
  apply andb_true_iff in H. destruct H as (Hr & Hx).
  apply in_range_spec in Hr. apply Z.eqb_eq in Hx.
  exists (Z.log2 x). split; [exact Hr |].
  now rewrite Z.shiftl_1_l in Hx.
Qed.

(** A handle that mapping returns has masks of the form the reader
    functions rely on: capacity minus one, with the capacity a power of two
    within the limits. *)
Lemma mmap_masks (prot : Z) (ring : file) (ring_offset : Z)
    (expected : option (list Z)) (base : ptr) (event_ring : monad_event_ring) :
  monad_event_ring_mmap prot ring ring_offset expected base = inr event_ring ->
  exists kd kp,
    16 <= kd <= 32 /\ 27 <= kp <= 40
    /\ desc_capacity_mask event_ring = 2 ^ kd - 1
    /\ payload_buf_mask event_ring = 2 ^ kp - 1.
Proof.
  unfold monad_event_ring_mmap. intros H. cbv zeta in H.
  remember (le_value (file_read ring (ring_offset + 40) 8)) as capacity.
  remember (le_value (file_read ring (ring_offset + 48) 8)) as buf_size.
  destruct (bytes_eqb _ MONAD_EVENT_RING_HEADER_VERSION); [| discriminate].
  cbn [negb] in H.
  destruct (match expected with Some _ => _ | None => _ end); [discriminate |].
  destruct (is_pow2_shift MONAD_EVENT_MIN_DESCRIPTORS_SHIFT _ _) eqn:Ed;
    [| discriminate].
  destruct (is_pow2_shift MONAD_EVENT_MIN_PAYLOAD_BUF_SHIFT _ _) eqn:Ep;
    [| discriminate].
  cbn [negb andb] in H. injection H as <-.
  cbv beta iota delta [desc_capacity_mask payload_buf_mask].
  apply is_pow2_shift_spec in Ed; [| unfold MONAD_EVENT_MIN_DESCRIPTORS_SHIFT; lia].
  apply is_pow2_shift_spec in Ep; [| unfold MONAD_EVENT_MIN_PAYLOAD_BUF_SHIFT; lia].
  destruct Ed as (kd & Hkd & ->). destruct Ep as (kp & Hkp & ->).
  exists kd, kp.
  unfold MONAD_EVENT_MIN_DESCRIPTORS_SHIFT, MONAD_EVENT_MAX_DESCRIPTORS_SHIFT,
    MONAD_EVENT_MIN_PAYLOAD_BUF_SHIFT, MONAD_EVENT_MAX_PAYLOAD_BUF_SHIFT in *.
  repeat split; lia.
Qed.

(** ** The theorems at sample inputs *)

Lemma sample_uint64 (s : Z) : 0 <= s <= 2 ^ 32 -> is_uint64 s.
Proof. unfold is_uint64, UINT64_MAX. lia. Qed.

Lemma try_copy_spec_witness :
  result (run (monad_event_ring_try_copy sample_ring 65536 out_ptr)
              quiet_env 0 empty_local) = true
  /\ loc_descriptors
       (memory (run (monad_event_ring_try_copy sample_ring 65536 out_ptr)
                    quiet_env 0 empty_local)) out_ptr
     = with_seqno 65536 sample_event
  /\ result (run (monad_event_ring_try_copy sample_ring 131073 out_ptr)
                 quiet_env 0 empty_local) = false.
Proof.
  assert (Hk : 0 <= 16) by lia.
  pose proof (try_copy_spec sample_ring sample_size 16 65536 out_ptr
                quiet_env 0 empty_local Hk eq_refl eq_refl
                (sample_uint64 65536 ltac:(lia))) as H.
  pose proof (try_copy_spec sample_ring sample_size 16 131073 out_ptr
                quiet_env 0 empty_local Hk eq_refl eq_refl
                (sample_uint64 131073 ltac:(lia))) as H'.
  cbv zeta in H, H'.
  destruct H as (_ & H). destruct H as (Hm & _ & _ & _ & Ht & _);
    [discriminate |].
  destruct H' as (_ & H'). destruct H' as (_ & _ & _ & _ & _ & Hf);
    [discriminate |].
  split; [apply Ht; reflexivity |].
  split; [rewrite Hm; reflexivity |].
  apply Hf. vm_compute. discriminate.
Defined.

Lemma payload_memcpy_double_check_witness :
  dst_ptr <> nullptr
  /\ result (run (monad_event_ring_payload_memcpy sample_ring
                    (with_seqno 65536 sample_event) dst_ptr 4)
                 (expiring_env 2) 0 empty_local) = nullptr
  /\ result (run (monad_event_ring_payload_memcpy sample_ring
                    (with_seqno 65536 sample_event) dst_ptr 4)
                 quiet_env 0 empty_local) = dst_ptr
  /\ loc_bytes
       (memory (run (monad_event_ring_payload_memcpy sample_ring
                       (with_seqno 65536 sample_event) dst_ptr 4)
                    quiet_env 0 empty_local)) (dst_ptr + 3)
     = (payload_buf sample_ring + 3) mod 256
  /\ loc_bytes
       (memory (run (monad_event_ring_payload_memcpy sample_ring
                       (with_seqno 65536 sample_event) dst_ptr 4)
                    quiet_env 0 empty_local)) (dst_ptr + 4)
     = 0.
Proof.
  assert (Hdst : dst_ptr <> nullptr) by discriminate.
  split; [exact Hdst |].
  pose proof (payload_memcpy_double_check sample_ring
                (with_seqno 65536 sample_event) dst_ptr 4
                (expiring_env 2) 0 empty_local Hdst) as H.
  pose proof (payload_memcpy_double_check sample_ring
                (with_seqno 65536 sample_event) dst_ptr 4
                quiet_env 0 empty_local Hdst) as H'.
  cbv zeta in H, H'.
  destruct H as (_ & _ & _ & _ & Hnull & _).
  destruct H' as (_ & _ & Hcopy & Hframe & _ & Hok & _).
  split; [apply Hnull; reflexivity |].
  split; [apply Hok; reflexivity |].
  split.
  - destruct (Hcopy eq_refl 3 ltac:(lia)) as (u & _ & Hbyte).
    rewrite Hbyte. reflexivity.
  - destruct (Hframe eq_refl) as (_ & Hout).
    rewrite Hout; [reflexivity | lia].
Defined.

Lemma payload_peek_mod_witness :
  monad_event_ring_payload_peek sample_ring wrapped_event
  = payload_buf sample_ring + 5.
Proof.
  assert (Hk : 0 <= 27) by lia.
  rewrite (payload_peek_mod sample_ring sample_size wrapped_event 27
             Hk eq_refl eq_refl).
  reflexivity.
Defined.

Lemma payload_memcpy_copies_n_witness :
  result (run (monad_event_ring_payload_memcpy sample_ring wrapped_event
                 dst_ptr 8) quiet_env 0 empty_local) = dst_ptr
  /\ payload_size wrapped_event < 8
  /\ loc_bytes
       (memory (run (monad_event_ring_payload_memcpy sample_ring wrapped_event
                       dst_ptr 8) quiet_env 0 empty_local)) (dst_ptr + 6)
     = (payload_buf sample_ring + 5 + 6) mod 256.
Proof.
  assert (Hk : 0 <= 27) by lia.
  assert (Hok : result (run (monad_event_ring_payload_memcpy sample_ring
                               wrapped_event dst_ptr 8)
                            quiet_env 0 empty_local) <> nullptr)
    by (vm_compute; discriminate).
  pose proof (payload_memcpy_copies_n sample_ring sample_size wrapped_event
                dst_ptr 8 27 quiet_env 0 empty_local Hk eq_refl eq_refl Hok)
    as H.
  destruct H as (Hres & _ & _ & _ & Hbeyond & _).
  split; [exact Hres |].
  split; [simpl; lia |].
  rewrite Hbeyond by (simpl; lia). reflexivity.
Defined.

Lemma init_size_bounds_witness :
  monad_event_ring_init_size (2 ^ 21) 16 27 0 = inr sample_size
  /\ monad_event_ring_init_size (2 ^ 21) 15 27 0 = inl InvalidSize
  /\ monad_event_ring_init_size (2 ^ 21) 32 41 0 = inl InvalidSize.
Proof.
  pose proof (init_size_bounds (2 ^ 21) 15 27 0) as Hlow.
  pose proof (init_size_bounds (2 ^ 21) 32 41 0) as Hhigh.
  cbv zeta in Hlow, Hhigh.
  destruct Hlow as (_ & Hlow & _). destruct Hhigh as (_ & Hhigh & _).
  split; [reflexivity |].
  split; [apply Hlow; lia | apply Hhigh; lia].
Defined.

Lemma header_magic_witness :
  exists ring',
    monad_event_ring_init_file sample_size MONAD_EVENT_CONTENT_TYPE_TEST
      (repeat 0 32) (fun _ => 0) 0 = inr ring'
    /\ file_read ring' 0 6 = [82; 73; 78; 71; 48; 49]
    /\ monad_event_ring_mmap 1 (fun _ => 0) 0 None 0 = inl BadMagic.
Proof.
  destruct header_magic as (Hval & _ & _ & _ & _ & Hinit & Hbad & _).
  eexists. split; [reflexivity |].
  split.
  - rewrite <- Hval.
    apply (Hinit sample_size MONAD_EVENT_CONTENT_TYPE_TEST (repeat 0 32)
             (fun _ => 0) 0).
    reflexivity.
  - apply Hbad. vm_compute. discriminate.
Defined.

(** * Further properties of the reader functions *)

(** ** Accesses *)

Lemma accesses_bind {A B : Type} (m : reader A) (f : A -> reader B)
    (env : environment) (t : nat) (loc : local_memory) :
  accesses (bind m f) env t =
  accesses m env t
  ++ accesses (f (result (run m env t loc))) env (clock (run m env t loc)).
Proof.
  revert t loc.
  induction m as [a | i k IH | i k IH | k IH | p k IH | p d k IH | p b k IH];
    intros t loc; simpl; try reflexivity;
    try (f_equal; apply IH); apply IH.
Qed.

Lemma accesses_clock {A : Type} (m : reader A) (env : environment) :
  forall (t : nat) (loc : local_memory),
  clock (run m env t loc) = (t + List.length (accesses m env t))%nat.
Proof.
  induction m as [a | i k IH | i k IH | k IH | p k IH | p d k IH | p b k IH];
    intros t loc; simpl;
    try (rewrite IH; lia); try apply IH.
  unfold clock. simpl. lia.
Qed.

Lemma accesses_memcpy_loop (n : nat) : forall (dst src : ptr) env t,
  accesses (memcpy_loop n dst src) env t
  = map (fun i => ReadsByte (src + Z.of_nat i)) (seq 0 n).
Proof.
  induction n as [| n IH]; intros dst src env t; [reflexivity |].
  cbn [memcpy_loop].
  change (accesses _ env t)
    with (ReadsByte src :: accesses (memcpy_loop n (dst + 1) (src + 1)) env (S t)).
  rewrite IH. cbn [seq map]. rewrite Z.add_0_r. f_equal.
  rewrite <- seq_shift, map_map.
  apply map_ext. intros i. f_equal. lia.
Qed.

Lemma mod_pow2_bounds (x k : Z) : 0 <= k -> 0 <= x mod 2 ^ k < 2 ^ k.
Proof. intros Hk. apply Z.mod_pos_bound. apply Z.pow_pos_nonneg; lia. Qed.

Lemma accesses_try_copy_nonzero (event_ring : monad_event_ring) (s : Z)
    (event : ptr) env t :
  s <> 0 ->
  accesses (monad_event_ring_try_copy event_ring s event) env t
  = [ReadsDescriptor (Z.land (sub64 s 1) (desc_capacity_mask event_ring));
     LoadsSeqno (Z.land (sub64 s 1) (desc_capacity_mask event_ring))].
Proof.
  intros Hnz. unfold monad_event_ring_try_copy.
  destruct (s =? 0) eqn:E; [apply Z.eqb_eq in E; contradiction |].
  cbn. destruct (seqno _ =? s); reflexivity.
Qed.

(** X1.  [monad_event_ring_try_copy] stays inside the descriptor array: for
    a handle whose mask is the (power of two) capacity minus one and any
    64-bit sequence number, it reads nothing at sequence number zero, and
    otherwise reads one slot and loads the [seqno] of that same slot, whose
    index [(s - 1) mod capacity] is at least 0 and below the capacity. *)
Theorem try_copy_accesses (event_ring : monad_event_ring)
    (sz : monad_event_ring_size) (k s : Z) (event : ptr)
    (env : environment) (t : nat) :
  0 <= k ->
  descriptor_capacity sz = 2 ^ k ->
  desc_capacity_mask event_ring = descriptor_capacity sz - 1 ->
  is_uint64 s ->
  let slot := (s - 1) mod descriptor_capacity sz in
  accesses (monad_event_ring_try_copy event_ring s event) env t
  = (if s =? 0 then [] else [ReadsDescriptor slot; LoadsSeqno slot])
  /\ (s <> 0 -> 0 <= slot < descriptor_capacity sz).
Proof.
  intros Hk Hcap Hmask Hs slot. split.
  - destruct (s =? 0) eqn:E; [apply Z.eqb_eq in E; subst s; reflexivity |].
    apply Z.eqb_neq in E.
    rewrite accesses_try_copy_nonzero by assumption.
    rewrite Hcap in Hmask.
    rewrite (slot_index_mod event_ring k s Hk Hmask Hs E).
    subst slot. rewrite Hcap. reflexivity.
  - intros _. subst slot. rewrite Hcap. now apply mod_pow2_bounds.
Qed.

Lemma try_copy_accesses_witness :
  accesses (monad_event_ring_try_copy sample_ring (2 ^ 64 - 1) out_ptr)
           quiet_env 0
  = [ReadsDescriptor 65534; LoadsSeqno 65534]
  /\ 0 <= 65534 < descriptor_capacity sample_size.
Proof.
  assert (Hk : 0 <= 16) by lia.
  assert (Hs : is_uint64 (2 ^ 64 - 1)) by (unfold is_uint64, UINT64_MAX; lia).
  destruct (try_copy_accesses sample_ring sample_size 16 (2 ^ 64 - 1) out_ptr
              quiet_env 0 Hk eq_refl eq_refl Hs) as (Hacc & Hin).
  split; [exact Hacc | apply Hin; discriminate].
Defined.

(** ** [monad_event_ring_try_copy] *)

(** X2.  [monad_event_ring_try_copy] writes nothing but the output
    descriptor: whatever the sequence number and whatever the recorder does
    meanwhile, the reader's bytes and every descriptor other than [*event]
    are as they were before the call. *)
Theorem try_copy_frame (event_ring : monad_event_ring) (s : Z) (event : ptr)
    (env : environment) (t : nat) (loc : local_memory) :
  let r := run (monad_event_ring_try_copy event_ring s event) env t loc in
  loc_bytes (memory r) = loc_bytes loc
  /\ (forall p, p <> event ->
        loc_descriptors (memory r) p = loc_descriptors loc p).
Proof.
  cbv zeta.
  destruct (Z.eq_dec s 0) as [-> | Hnz].
  - split; [reflexivity | intros; reflexivity].
  - rewrite run_try_copy_nonzero by assumption. cbn [memory fst snd].
    split; [reflexivity |].
    intros p Hp. simpl.
    destruct (p =? event) eqn:E; [apply Z.eqb_eq in E; contradiction |].
    reflexivity.
Qed.

Lemma try_copy_frame_witness :
  loc_descriptors
    (memory (run (monad_event_ring_try_copy sample_ring 65541 out_ptr)
                 quiet_env 0 empty_local)) (out_ptr + 64)
  = zero_descriptor.
Proof.
  destruct (try_copy_frame sample_ring 65541 out_ptr quiet_env 0 empty_local)
    as (_ & Hother).
  rewrite Hother; [reflexivity | discriminate].
Defined.

(** X3.  Sequence numbers that differ by a multiple of the capacity share a
    slot, and the [seqno] of the slot tells them apart: once the slot has
    been reused for [s + j * capacity], a call for [s] returns false (the
    reader has been lapped) while a call for [s + j * capacity] at the same
    moment returns true. *)
Theorem try_copy_lapped (event_ring : monad_event_ring)
    (sz : monad_event_ring_size) (k s j : Z) (event : ptr)
    (env : environment) (t : nat) (loc : local_memory) :
  0 <= k ->
  descriptor_capacity sz = 2 ^ k ->
  desc_capacity_mask event_ring = descriptor_capacity sz - 1 ->
  is_uint64 s -> s <> 0 -> 0 < j ->
  is_uint64 (s + j * descriptor_capacity sz) ->
  let slot := (s - 1) mod descriptor_capacity sz in
  seqno (shm_descriptors (env (S t)) slot) = s + j * descriptor_capacity sz ->
  accesses (monad_event_ring_try_copy event_ring
              (s + j * descriptor_capacity sz) event) env t
  = accesses (monad_event_ring_try_copy event_ring s event) env t
  /\ result (run (monad_event_ring_try_copy event_ring s event) env t loc)
     = false
  /\ result (run (monad_event_ring_try_copy event_ring
                    (s + j * descriptor_capacity sz) event) env t loc)
     = true.
Proof.
  intros Hk Hcap Hmask Hs Hnz Hj Hs' slot Hseq.
  assert (Hpos : 0 < descriptor_capacity sz)
    by (rewrite Hcap; apply Z.pow_pos_nonneg; lia).
  assert (Hnz' : s + j * descriptor_capacity sz <> 0)
    by (unfold is_uint64 in Hs; nia).
  assert (Hslot' : (s + j * descriptor_capacity sz - 1) mod descriptor_capacity sz
                   = slot).
  { subst slot.
    replace (s + j * descriptor_capacity sz - 1)
      with (s - 1 + j * descriptor_capacity sz) by lia.
    apply Z.mod_add. lia. }
  assert (Hm : desc_capacity_mask event_ring = 2 ^ k - 1)
    by (rewrite Hmask, Hcap; reflexivity).
  assert (Hi : Z.land (sub64 s 1) (desc_capacity_mask event_ring) = slot).
  { rewrite (slot_index_mod event_ring k s Hk Hm Hs Hnz).
    subst slot. now rewrite Hcap. }
  assert (Hi' : Z.land (sub64 (s + j * descriptor_capacity sz) 1)
                       (desc_capacity_mask event_ring) = slot).
  { rewrite (slot_index_mod event_ring k _ Hk Hm Hs' Hnz').
    rewrite <- Hcap. exact Hslot'. }
  rewrite !accesses_try_copy_nonzero, !run_try_copy_nonzero by assumption.
  rewrite Hi, Hi', Hseq. cbn [result fst].
  split; [reflexivity |].
  split; [apply Z.eqb_neq; nia | apply Z.eqb_refl].
Qed.

Lemma try_copy_lapped_witness :
  result (run (monad_event_ring_try_copy sample_ring 5 out_ptr)
              lapped_env 0 empty_local) = false
  /\ result (run (monad_event_ring_try_copy sample_ring 65541 out_ptr)
                 lapped_env 0 empty_local) = true.
Proof.
  assert (Hk : 0 <= 16) by lia.
  assert (Hs : is_uint64 5) by (unfold is_uint64, UINT64_MAX; lia).
  assert (Hnz : 5 <> 0) by discriminate.
  assert (Hj : 0 < 1) by lia.
  assert (Hs' : is_uint64 (5 + 1 * descriptor_capacity sample_size))
    by (unfold is_uint64, UINT64_MAX; simpl; lia).
  destruct (try_copy_lapped sample_ring sample_size 16 5 1 out_ptr
              lapped_env 0 empty_local Hk eq_refl eq_refl Hs Hnz Hj Hs'
              eq_refl) as (_ & Hfalse & Htrue).
  split; [exact Hfalse | exact Htrue].
Defined.

(** ** [monad_event_ring_payload_peek] *)

(** X4.  For a handle whose [payload_buf_mask] is the (power of two)
    payload buffer size minus one, the pointer that
    [monad_event_ring_payload_peek] returns lies inside the payload buffer,
    whatever [payload_buf_offset] the descriptor carries. *)
Theorem payload_peek_in_buffer (event_ring : monad_event_ring)
    (sz : monad_event_ring_size) (event : monad_event_descriptor) (k : Z) :
  0 <= k ->
  payload_buf_size sz = 2 ^ k ->
  payload_buf_mask event_ring = payload_buf_size sz - 1 ->
  payload_buf event_ring
  <= monad_event_ring_payload_peek event_ring event
  < payload_buf event_ring + payload_buf_size sz.
Proof.
  intros Hk Hsz Hmask. unfold monad_event_ring_payload_peek.
  rewrite Hmask, Hsz, land_mask_mod by assumption.
  pose proof (mod_pow2_bounds (payload_buf_offset event) k Hk). lia.
Qed.

Lemma payload_peek_in_buffer_witness :
  payload_buf sample_ring
  <= monad_event_ring_payload_peek sample_ring
       (with_payload_buf_offset (2 ^ 64 - 1) sample_event)
  < payload_buf sample_ring + 2 ^ 27.
Proof.
  assert (Hk : 0 <= 27) by lia.
  exact (payload_peek_in_buffer sample_ring sample_size
           (with_payload_buf_offset (2 ^ 64 - 1) sample_event) 27
           Hk eq_refl eq_refl).
Defined.

(** X5.  Payload offsets that differ by a multiple of the payload buffer
    size alias: [monad_event_ring_payload_peek] returns the same pointer
    for both descriptors, so the pointer alone cannot tell a payload from
    the one that later overwrote it. *)
Theorem payload_peek_aliases (event_ring : monad_event_ring)
    (sz : monad_event_ring_size) (event event' : monad_event_descriptor)
    (k j : Z) :
  0 <= k ->
  payload_buf_size sz = 2 ^ k ->
  payload_buf_mask event_ring = payload_buf_size sz - 1 ->
  payload_buf_offset event'
  = payload_buf_offset event + j * payload_buf_size sz ->
  monad_event_ring_payload_peek event_ring event'
  = monad_event_ring_payload_peek event_ring event.
Proof.
  intros Hk Hsz Hmask Hoff. unfold monad_event_ring_payload_peek.
  rewrite Hmask, Hsz, !land_mask_mod by assumption.
  rewrite Hoff, Hsz. f_equal. apply Z.mod_add.
  apply Z.pow_nonzero; lia.
Qed.

Lemma payload_peek_aliases_witness :
  monad_event_ring_payload_peek sample_ring
    (with_payload_buf_offset (5 + 3 * 2 ^ 27) sample_event)
  = monad_event_ring_payload_peek sample_ring
      (with_payload_buf_offset 5 sample_event).
Proof.
  assert (Hk : 0 <= 27) by lia.
  exact (payload_peek_aliases sample_ring sample_size
           (with_payload_buf_offset 5 sample_event)
           (with_payload_buf_offset (5 + 3 * 2 ^ 27) sample_event)
           27 3 Hk eq_refl eq_refl eq_refl).
Defined.

(** ** [monad_event_ring_payload_check] *)

(** X6.  Expiration is ordered by payload offset and, as long as the window
    start never moves back, by time: when [monad_event_ring_payload_check]
    accepts a descriptor at some access, it accepts at that access every
    descriptor with an offset at least as large, and it accepted the same
    descriptor at every earlier access; so a descriptor that has been found
    expired is never accepted again. *)
Theorem payload_check_ordered (event_ring : monad_event_ring)
    (event event' : monad_event_descriptor) (env : environment)
    (t t' : nat) (loc : local_memory) :
  window_nondecreasing env ->
  (t <= t')%nat ->
  payload_buf_offset event <= payload_buf_offset event' ->
  result (run (monad_event_ring_payload_check event_ring event) env t' loc)
  = true ->
  result (run (monad_event_ring_payload_check event_ring event') env t' loc)
  = true
  /\ result (run (monad_event_ring_payload_check event_ring event) env t loc)
     = true.
Proof.
  intros Hmono Ht Hoff. rewrite !run_payload_check. cbn [result fst].
  rewrite !Z.geb_le. intros Hlive.
  specialize (Hmono t t' Ht). lia.
Qed.

Lemma expiring_env_nondecreasing (t0 : nat) :
  window_nondecreasing (expiring_env t0).
Proof.
  intros t t' Ht. unfold expiring_env.
  destruct (Nat.ltb_spec t t0); destruct (Nat.ltb_spec t' t0);
    simpl; try lia.
Qed.

Lemma payload_check_ordered_witness :
  result (run (monad_event_ring_payload_check sample_ring
                 (with_payload_buf_offset 5 sample_event))
              (expiring_env 2) 1 empty_local) = true
  /\ result (run (monad_event_ring_payload_check sample_ring sample_event)
                 (expiring_env 2) 0 empty_local) = true.
Proof.
  assert (Ht : (0 <= 1)%nat) by lia.
  assert (Hoff : payload_buf_offset sample_event
                 <= payload_buf_offset (with_payload_buf_offset 5 sample_event))
    by (simpl; lia).
  exact (payload_check_ordered sample_ring sample_event
           (with_payload_buf_offset 5 sample_event) (expiring_env 2) 0 1
           empty_local (expiring_env_nondecreasing 2) Ht Hoff eq_refl).
Defined.

(** ** [monad_event_ring_payload_memcpy] *)

(** X7.  Whatever it returns, [monad_event_ring_payload_memcpy] writes
    nothing outside the [n] bytes at [dst]: the reader's descriptors and
    every byte below [dst] or at and above [dst + n] are as they were. *)
Theorem payload_memcpy_frame (event_ring : monad_event_ring)
    (event : monad_event_descriptor) (dst : ptr) (n : Z)
    (env : environment) (t : nat) (loc : local_memory) :
  let r := run (monad_event_ring_payload_memcpy event_ring event dst n)
               env t loc in
  loc_descriptors (memory r) = loc_descriptors loc
  /\ (forall a, ~ (dst <= a < dst + n) ->
        loc_bytes (memory r) a = loc_bytes loc a).
Proof.
  cbv zeta. rewrite run_payload_memcpy, !run_payload_check. run_simpl.
  destruct (run_memcpy dst (monad_event_ring_payload_peek event_ring event)
              n env (S t) loc) as (_ & Hd & _ & Hout).
  destruct (payload_buf_offset event
              >=? buffer_window_start (shm_control (env t))); run_simpl.
  - destruct (payload_buf_offset event >=? _); run_simpl; split; assumption.
  - split; [reflexivity | intros; reflexivity].
Qed.

Lemma payload_memcpy_frame_witness :
  loc_bytes
    (memory (run (monad_event_ring_payload_memcpy sample_ring wrapped_event
                    dst_ptr 8) quiet_env 0 empty_local)) (dst_ptr + 8)
  = 0.
Proof.
  destruct (payload_memcpy_frame sample_ring wrapped_event dst_ptr 8
              quiet_env 0 empty_local) as (_ & Hout).
  rewrite Hout; [reflexivity | lia].
Defined.

(** The accesses of [monad_event_ring_payload_memcpy]. *)
Lemma accesses_payload_memcpy (event_ring : monad_event_ring)
    (event : monad_event_descriptor) (dst : ptr) (n : Z)
    (env : environment) (t : nat) (loc : local_memory) :
  let live :=
    result (run (monad_event_ring_payload_check event_ring event) env t loc) in
  let src := monad_event_ring_payload_peek event_ring event in
  accesses (monad_event_ring_payload_memcpy event_ring event dst n) env t
  = if live
    then LoadsWindowStart :: byte_reads src (Z.to_nat n) ++ [LoadsWindowStart]
    else [LoadsWindowStart].
Proof.
  cbv zeta. unfold monad_event_ring_payload_memcpy.
  rewrite (accesses_bind _ _ env t loc), !run_payload_check. run_simpl.
  change (accesses (monad_event_ring_payload_check event_ring event) env t)
    with [LoadsWindowStart].
  destruct (payload_buf_offset event
              >=? buffer_window_start (shm_control (env t))); run_simpl;
    [| reflexivity].
  cbn [app]. f_equal.
  rewrite (accesses_bind _ _ env (S t) loc).
  unfold memcpy at 1. rewrite accesses_memcpy_loop. fold (byte_reads
    (monad_event_ring_payload_peek event_ring event) (Z.to_nat n)).
  f_equal.
  rewrite (accesses_bind _ _ env _
             (memory (run (memcpy dst
                             (monad_event_ring_payload_peek event_ring event) n)
                          env (S t) loc))).
  rewrite run_payload_check. run_simpl.
  destruct (payload_buf_offset event >=? _); reflexivity.
Qed.


Lemma byte_reads_only_bytes (src : ptr) (n : nat) (a : access) :
  In a (byte_reads src n) -> exists p, a = ReadsByte p.
Proof.
  unfold byte_reads. intros H. apply in_map_iff in H.
  destruct H as (i & <- & _). eauto.
Qed.

Lemma in_byte_reads (src : ptr) (n : Z) (a : access) :
  In a (byte_reads src (Z.to_nat n))
  <-> exists i, 0 <= i < n /\ a = ReadsByte (src + i).
Proof.
  unfold byte_reads. rewrite in_map_iff. split.
  - intros (j & <- & Hj). apply in_seq in Hj.
    exists (Z.of_nat j). split; [lia | reflexivity].
  - intros (i & Hi & ->). exists (Z.to_nat i).
    split; [f_equal; lia | apply in_seq; lia].
Qed.

(** X8.  The accesses of [monad_event_ring_payload_memcpy]: when the first
    window check fails, the window load is all it reads of the mapping;
    otherwise its first and its last access are loads of the window start,
    and what it reads between the two are bytes of the mapping, at the
    addresses from the one [monad_event_ring_payload_peek] gives up to [n]
    bytes further and at no other address.  It never reads a descriptor
    slot. *)
Theorem payload_memcpy_accesses (event_ring : monad_event_ring)
    (event : monad_event_descriptor) (dst : ptr) (n : Z)
    (env : environment) (t : nat) (loc : local_memory) :
  let live :=
    result (run (monad_event_ring_payload_check event_ring event) env t loc) in
  let src := monad_event_ring_payload_peek event_ring event in
  let acc :=
    accesses (monad_event_ring_payload_memcpy event_ring event dst n) env t in
  (live = false -> acc = [LoadsWindowStart])
  /\ (live = true ->
        exists mid,
          acc = LoadsWindowStart :: mid ++ [LoadsWindowStart]
          /\ forall a, In a mid <->
                       exists i, 0 <= i < n /\ a = ReadsByte (src + i))
  /\ (forall i, ~ In (ReadsDescriptor i) acc /\ ~ In (LoadsSeqno i) acc).
Proof.
  cbv zeta. rewrite (accesses_payload_memcpy event_ring event dst n env t loc).
  destruct (result (run (monad_event_ring_payload_check event_ring event)
                        env t loc)).
  - split; [discriminate |].
    split.
    + intros _.
      exists (byte_reads (monad_event_ring_payload_peek event_ring event)
                         (Z.to_nat n)).
      split; [reflexivity | intros a; apply in_byte_reads].
    + intros i.
      split; intros [H | H]; try discriminate;
        apply in_app_or in H; destruct H as [H | [H | []]]; try discriminate;
        apply byte_reads_only_bytes in H; destruct H as (p & H); discriminate.
  - split; [reflexivity |].
    split; [discriminate |].
    intros i. split; intros [H | []]; discriminate.
Qed.

Lemma payload_memcpy_accesses_witness :
  In (ReadsByte (payload_buf sample_ring + 5 + 2))
     (accesses (monad_event_ring_payload_memcpy sample_ring wrapped_event
                  dst_ptr 4) quiet_env 0)
  /\ accesses (monad_event_ring_payload_memcpy sample_ring sample_event
                 dst_ptr 4) (expiring_env 0) 0
     = [LoadsWindowStart].
Proof.
  destruct (payload_memcpy_accesses sample_ring wrapped_event dst_ptr 4
              quiet_env 0 empty_local) as (_ & Hlive & _).
  destruct (payload_memcpy_accesses sample_ring sample_event dst_ptr 4
              (expiring_env 0) 0 empty_local) as (Hdead & _).
  split; [| apply Hdead; reflexivity].
  destruct (Hlive eq_refl) as (mid & -> & Hmid).
  right. apply in_or_app. left. apply Hmid.
  exists 2. split; [lia | reflexivity].
Defined.

(** X9.  With [n = 0] [monad_event_ring_payload_memcpy] is a pure
    expiration test: it leaves the reader's memory as it is, reads no
    payload byte, and returns [dst] exactly when the window check passes
    twice in a row, null otherwise. *)
Theorem payload_memcpy_zero_length (event_ring : monad_event_ring)
    (event : monad_event_descriptor) (dst : ptr)
    (env : environment) (t : nat) (loc : local_memory) :
  let r := run (monad_event_ring_payload_memcpy event_ring event dst 0)
               env t loc in
  let live :=
    result (run (monad_event_ring_payload_check event_ring event) env t loc) in
  let live' :=
    result (run (monad_event_ring_payload_check event_ring event) env (S t)
                loc) in
  memory r = loc
  /\ result r = (if live && live' then dst else nullptr)
  /\ (forall p, ~ In (ReadsByte p)
        (accesses (monad_event_ring_payload_memcpy event_ring event dst 0)
                  env t)).
Proof.
  cbv zeta.
  rewrite (accesses_payload_memcpy event_ring event dst 0 env t loc).
  rewrite run_payload_memcpy, !run_payload_check. run_simpl.
  change (Z.to_nat 0) with 0%nat. rewrite Nat.add_0_r.
  destruct (payload_buf_offset event
              >=? buffer_window_start (shm_control (env t))); run_simpl.
  - destruct (payload_buf_offset event
                >=? buffer_window_start (shm_control (env (S t))));
      run_simpl; (split; [reflexivity |]); (split; [reflexivity |]);
      intros p [H | [H | []]]; discriminate.
  - split; [reflexivity |]. split; [reflexivity |].
    intros p [H | []]; discriminate.
Qed.

(** X10.  When the window start never moves back, the check after the copy
    decides alone: [monad_event_ring_payload_memcpy] returns [dst] exactly
    when that second check passes, and null exactly when it fails (the
    first check only saves the copy of a payload that is already gone). *)
Theorem payload_memcpy_second_check_decides (event_ring : monad_event_ring)
    (event : monad_event_descriptor) (dst : ptr) (n : Z)
    (env : environment) (t : nat) (loc : local_memory) :
  dst <> nullptr ->
  window_nondecreasing env ->
  let r := run (monad_event_ring_payload_memcpy event_ring event dst n)
               env t loc in
  let live' :=
    result (run (monad_event_ring_payload_check event_ring event) env
                (S t + Z.to_nat n) loc) in
  (result r = dst <-> live' = true)
  /\ (result r = nullptr <-> live' = false).
Proof.
  intros Hdst Hmono. cbv zeta.
  rewrite run_payload_memcpy, !run_payload_check. run_simpl.
  assert (Hle : buffer_window_start (shm_control (env t))
                <= buffer_window_start
                     (shm_control (env (S t + Z.to_nat n)%nat)))
    by (apply Hmono; lia).
  destruct (Z.geb_spec (payload_buf_offset event)
              (buffer_window_start (shm_control (env t)))) as [H1 | H1];
    destruct (Z.geb_spec (payload_buf_offset event)
                (buffer_window_start
                   (shm_control (env (S t + Z.to_nat n)%nat)))) as [H2 | H2];
    run_simpl; try lia;
    repeat split; intros; try reflexivity; try discriminate; congruence.
Qed.

Lemma payload_memcpy_second_check_decides_witness :
  result (run (monad_event_ring_payload_memcpy sample_ring
                 (with_seqno 65536 sample_event) dst_ptr 4)
              (expiring_env 2) 0 empty_local) = nullptr.
Proof.
  assert (Hdst : dst_ptr <> nullptr) by discriminate.
  destruct (payload_memcpy_second_check_decides sample_ring
              (with_seqno 65536 sample_event) dst_ptr 4 (expiring_env 2) 0
              empty_local Hdst (expiring_env_nondecreasing 2))
    as (_ & Hnull).
  apply Hnull. reflexivity.
Defined.

(** X11.  Soundness of the double check.  When the window start never
    moves back and [monad_event_ring_payload_memcpy] succeeds, every one of
    the [n] bytes was read at a moment at which
    [monad_event_ring_payload_check] accepted the descriptor: no byte in
    the destination was read from an expired payload, and byte [i] is the
    byte the mapping held at the source address at that moment. *)
Theorem payload_memcpy_reads_live (event_ring : monad_event_ring)
    (event : monad_event_descriptor) (dst : ptr) (n : Z)
    (env : environment) (t : nat) (loc : local_memory) :
  window_nondecreasing env ->
  let r := run (monad_event_ring_payload_memcpy event_ring event dst n)
               env t loc in
  result r <> nullptr ->
  forall i, 0 <= i < n ->
    result (run (monad_event_ring_payload_check event_ring event) env
                (S t + Z.to_nat i) loc) = true
    /\ loc_bytes (memory r) (dst + i)
       = shm_bytes (env (S t + Z.to_nat i)%nat)
           (monad_event_ring_payload_peek event_ring event + i).
Proof.
  intros Hmono. cbv zeta.
  rewrite run_payload_memcpy, !run_payload_check. run_simpl.
  destruct (run_memcpy dst (monad_event_ring_payload_peek event_ring event)
              n env (S t) loc) as (_ & _ & Hin & _).
  destruct (payload_buf_offset event
              >=? buffer_window_start (shm_control (env t)));
    run_simpl; [| intros Hok; now elim Hok].
  destruct (Z.geb_spec (payload_buf_offset event)
              (buffer_window_start
                 (shm_control (env (S t + Z.to_nat n)%nat)))) as [H2 | H2];
    run_simpl; [| intros Hok; now elim Hok].
  intros _ i Hi. split; [| now apply Hin].
  apply Z.geb_le.
  assert (Hle : buffer_window_start (shm_control (env (S t + Z.to_nat i)%nat))
                <= buffer_window_start
                     (shm_control (env (S t + Z.to_nat n)%nat)))
    by (apply Hmono; lia).
  lia.
Qed.

Lemma payload_memcpy_reads_live_witness :
  result (run (monad_event_ring_payload_check sample_ring sample_event)
              (expiring_env 6) (1 + 3) empty_local) = true
  /\ loc_bytes
       (memory (run (monad_event_ring_payload_memcpy sample_ring sample_event
                       dst_ptr 4) (expiring_env 6) 0 empty_local))
       (dst_ptr + 3)
     = (payload_buf sample_ring + 3) mod 256.
Proof.
  assert (Hok : result (run (monad_event_ring_payload_memcpy sample_ring
                               sample_event dst_ptr 4)
                            (expiring_env 6) 0 empty_local) <> nullptr)
    by (vm_compute; discriminate).
  assert (Hi : 0 <= 3 < 4) by lia.
  destruct (payload_memcpy_reads_live sample_ring sample_event dst_ptr 4
              (expiring_env 6) 0 empty_local (expiring_env_nondecreasing 6)
              Hok 3 Hi) as (Hlive & Hbyte).
  split; [exact Hlive | rewrite Hbyte; reflexivity].
Defined.

(** X12.  [monad_event_ring_payload_memcpy] does not wrap its source
    around the payload buffer.  For a handle whose mask is the (power of
    two) buffer size minus one: when the payload starts [room] bytes before
    the end of the buffer and [n] is larger than [room], the bytes from
    index [room] on are read at and above [payload_buf + payload_buf_size],
    past the end of the buffer, not from its start. *)
Theorem payload_memcpy_no_wrap (event_ring : monad_event_ring)
    (sz : monad_event_ring_size) (event : monad_event_descriptor)
    (dst : ptr) (n k : Z) (env : environment) (t : nat) (loc : local_memory) :
  0 <= k ->
  payload_buf_size sz = 2 ^ k ->
  payload_buf_mask event_ring = payload_buf_size sz - 1 ->
  let r := run (monad_event_ring_payload_memcpy event_ring event dst n)
               env t loc in
  let room := payload_buf_size sz
              - payload_buf_offset event mod payload_buf_size sz in
  result r <> nullptr ->
  0 < room <= payload_buf_size sz
  /\ forall i, room <= i < n ->
       In (ReadsByte (payload_buf event_ring + payload_buf_size sz + (i - room)))
          (accesses (monad_event_ring_payload_memcpy event_ring event dst n)
                    env t)
       /\ loc_bytes (memory r) (dst + i)
          = shm_bytes (env (S t + Z.to_nat i)%nat)
              (payload_buf event_ring + payload_buf_size sz + (i - room)).
Proof.
  intros Hk Hsz Hmask. cbv zeta.
  pose proof (mod_pow2_bounds (payload_buf_offset event) k Hk) as Hb.
  rewrite <- Hsz in Hb.
  assert (Hsrc : monad_event_ring_payload_peek event_ring event
                 = payload_buf event_ring
                   + payload_buf_offset event mod payload_buf_size sz).
  { unfold monad_event_ring_payload_peek.
    rewrite Hmask, Hsz, land_mask_mod by assumption. reflexivity. }
  rewrite (accesses_payload_memcpy event_ring event dst n env t loc).
  rewrite run_payload_memcpy, !run_payload_check. run_simpl.
  destruct (run_memcpy dst (monad_event_ring_payload_peek event_ring event)
              n env (S t) loc) as (_ & _ & Hin & _).
  destruct (payload_buf_offset event
              >=? buffer_window_start (shm_control (env t)));
    run_simpl; [| intros Hok; now elim Hok].
  destruct (payload_buf_offset event
              >=? buffer_window_start
                    (shm_control (env (S t + Z.to_nat n)%nat)));
    run_simpl; [| intros Hok; now elim Hok].
  intros _. split; [lia |].
  intros i Hi.
  assert (Haddr : payload_buf event_ring + payload_buf_size sz
                  + (i - (payload_buf_size sz
                          - payload_buf_offset event mod payload_buf_size sz))
                  = monad_event_ring_payload_peek event_ring event + i)
    by (rewrite Hsrc; lia).
  rewrite Haddr. split.
  - right. apply in_or_app. left. unfold byte_reads.
    apply in_map_iff. exists (Z.to_nat i).
    split; [f_equal; lia | apply in_seq; lia].
  - apply Hin. lia.
Qed.

Lemma payload_memcpy_no_wrap_witness :
  loc_bytes
    (memory (run (monad_event_ring_payload_memcpy sample_ring
                    (with_payload_buf_offset (2 ^ 27 - 2) sample_event)
                    dst_ptr 4) quiet_env 0 empty_local)) (dst_ptr + 3)
  = (payload_buf sample_ring + 2 ^ 27 + 1) mod 256.
Proof.
  assert (Hk : 0 <= 27) by lia.
  assert (Hok : result (run (monad_event_ring_payload_memcpy sample_ring
                               (with_payload_buf_offset (2 ^ 27 - 2) sample_event)
                               dst_ptr 4) quiet_env 0 empty_local) <> nullptr)
    by (vm_compute; discriminate).
  destruct (payload_memcpy_no_wrap sample_ring sample_size
              (with_payload_buf_offset (2 ^ 27 - 2) sample_event) dst_ptr 4 27
              quiet_env 0 empty_local Hk eq_refl eq_refl Hok) as (_ & Hpast).
  assert (Hi : payload_buf_size sample_size
               - payload_buf_offset
                   (with_payload_buf_offset (2 ^ 27 - 2) sample_event)
                 mod payload_buf_size sample_size <= 3 < 4)
    by (vm_compute; split; [discriminate | reflexivity]).
  destruct (Hpast 3 Hi) as (_ & Hbyte).
  rewrite Hbyte. reflexivity.
Defined.

(** ** The read path on a mapping nobody writes *)

(** X13.  On a mapping that is not written while the reader runs,
    [monad_event_ring_try_copy] followed by
    [monad_event_ring_payload_memcpy] on the descriptor it copied delivers
    the event: when slot [(s - 1) mod capacity] holds sequence number [s]
    and its payload offset is not below the window start, the first call
    returns true with the slot's descriptor, and the second returns [dst]
    with the [n] bytes found at [payload_buf + (offset mod
    payload_buf_size)], leaving the copied descriptor in place. *)
Theorem read_event_quiescent (event_ring : monad_event_ring)
    (sz : monad_event_ring_size) (kd kp s : Z) (out dst : ptr) (n : Z)
    (shm : shared_memory) (env : environment) (t : nat) (loc : local_memory) :
  0 <= kd -> descriptor_capacity sz = 2 ^ kd ->
  desc_capacity_mask event_ring = descriptor_capacity sz - 1 ->
  0 <= kp -> payload_buf_size sz = 2 ^ kp ->
  payload_buf_mask event_ring = payload_buf_size sz - 1 ->
  is_uint64 s -> s <> 0 -> dst <> nullptr ->
  quiescent env shm ->
  let d := shm_descriptors shm ((s - 1) mod descriptor_capacity sz) in
  seqno d = s ->
  payload_buf_offset d >= buffer_window_start (shm_control shm) ->
  let c := run (monad_event_ring_try_copy event_ring s out) env t loc in
  let r := run (monad_event_ring_payload_memcpy event_ring
                  (loc_descriptors (memory c) out) dst n)
               env (clock c) (memory c) in
  result c = true
  /\ result r = dst
  /\ loc_descriptors (memory r) out = d
  /\ forall i, 0 <= i < n ->
       loc_bytes (memory r) (dst + i)
       = shm_bytes shm
           (payload_buf event_ring
            + payload_buf_offset d mod payload_buf_size sz + i).
Proof.
  intros Hkd Hcap Hdmask Hkp Hsz Hpmask Hs Hnz Hdst Hq d Hseq Hlive.
  cbv zeta.
  assert (Hm : desc_capacity_mask event_ring = 2 ^ kd - 1)
    by (rewrite Hdmask, Hcap; reflexivity).
  rewrite run_try_copy_nonzero by assumption.
  rewrite (slot_index_mod event_ring kd s Hkd Hm Hs Hnz), <- Hcap.
  rewrite !Hq. fold d. run_simpl. rewrite store_descriptor_same.
  rewrite Hseq, Z.eqb_refl.
  rewrite run_payload_memcpy, !run_payload_check. run_simpl.
  destruct (run_memcpy dst (monad_event_ring_payload_peek event_ring d)
              n env (S (S (S t))) (store_descriptor out d loc))
    as (_ & Hd & Hin & _).
  rewrite !Hq.
  assert (Hge : (payload_buf_offset d
                 >=? buffer_window_start (shm_control shm)) = true)
    by (apply Z.geb_le; lia).
  rewrite Hge. run_simpl.
  split; [reflexivity |].
  split; [reflexivity |].
  split; [rewrite Hd; apply store_descriptor_same |].
  intros i Hi. rewrite Hin by assumption. rewrite Hq.
  unfold monad_event_ring_payload_peek.
  rewrite Hpmask, Hsz, land_mask_mod by assumption. reflexivity.
Qed.

Lemma quiet_env_quiescent : quiescent quiet_env (sample_shm 0).
Proof. intros t. reflexivity. Qed.

Lemma read_event_quiescent_witness :
  result (run (monad_event_ring_try_copy sample_ring 7 out_ptr)
              quiet_env 0 empty_local) = true
  /\ loc_bytes
       (memory
          (run (monad_event_ring_payload_memcpy sample_ring
                  (loc_descriptors
                     (memory (run (monad_event_ring_try_copy sample_ring 7
                                     out_ptr) quiet_env 0 empty_local))
                     out_ptr) dst_ptr 4)
               quiet_env
               (clock (run (monad_event_ring_try_copy sample_ring 7 out_ptr)
                           quiet_env 0 empty_local))
               (memory (run (monad_event_ring_try_copy sample_ring 7 out_ptr)
                            quiet_env 0 empty_local))))
       (dst_ptr + 2)
     = (payload_buf sample_ring + 2) mod 256.
Proof.
  assert (Hkd : 0 <= 16) by lia.
  assert (Hkp : 0 <= 27) by lia.
  assert (Hs : is_uint64 7) by (unfold is_uint64, UINT64_MAX; lia).
  assert (Hnz : 7 <> 0) by discriminate.
  assert (Hdst : dst_ptr <> nullptr) by discriminate.
  assert (Hlive : payload_buf_offset
                    (shm_descriptors (sample_shm 0)
                       ((7 - 1) mod descriptor_capacity sample_size))
                  >= buffer_window_start (shm_control (sample_shm 0)))
    by (vm_compute; discriminate).
  destruct (read_event_quiescent sample_ring sample_size 16 27 7 out_ptr
              dst_ptr 4 (sample_shm 0) quiet_env 0 empty_local
              Hkd eq_refl eq_refl Hkp eq_refl eq_refl Hs Hnz Hdst
              quiet_env_quiescent eq_refl Hlive)
    as (Htrue & _ & _ & Hbytes).
  split; [exact Htrue |].
  rewrite Hbytes by lia. reflexivity.
Defined.

(** ** [monad_event_ring_try_copy] on an undisturbed slot *)

(** X14.  When the recorder does not write the slot between the copy and
    the load of [seqno], [monad_event_ring_try_copy] is exact for a
    sequence number other than zero: it returns true iff the slot holds
    that sequence number, the output descriptor is the slot, and on a true
    result the [seqno] field of the output descriptor is the sequence
    number asked for. *)
Theorem try_copy_undisturbed (event_ring : monad_event_ring) (s : Z)
    (event : ptr) (env : environment) (t : nat) (loc : local_memory) :
  s <> 0 ->
  let slot := Z.land (sub64 s 1) (desc_capacity_mask event_ring) in
  shm_descriptors (env t) slot = shm_descriptors (env (S t)) slot ->
  let r := run (monad_event_ring_try_copy event_ring s event) env t loc in
  (result r = true <-> seqno (shm_descriptors (env t) slot) = s)
  /\ loc_descriptors (memory r) event = shm_descriptors (env (S t)) slot
  /\ (result r = true -> seqno (loc_descriptors (memory r) event) = s).
Proof.
  intros Hnz slot Hsame. cbv zeta.
  rewrite run_try_copy_nonzero by assumption. fold slot.
  cbn [result memory fst snd]. rewrite store_descriptor_same, <- Hsame.
  split; [apply Z.eqb_eq |].
  split; [reflexivity | apply Z.eqb_eq].
Qed.

Lemma try_copy_undisturbed_witness :
  result (run (monad_event_ring_try_copy sample_ring 7 out_ptr)
              quiet_env 0 empty_local) = true
  /\ seqno (loc_descriptors
              (memory (run (monad_event_ring_try_copy sample_ring 7 out_ptr)
                           quiet_env 0 empty_local)) out_ptr) = 7.
Proof.
  assert (Hnz : 7 <> 0) by discriminate.
  destruct (try_copy_undisturbed sample_ring 7 out_ptr quiet_env 0
              empty_local Hnz eq_refl) as (Hiff & _ & Hseq).
  assert (Htrue : result (run (monad_event_ring_try_copy sample_ring 7 out_ptr)
                              quiet_env 0 empty_local) = true)
    by (apply Hiff; reflexivity).
  split; [exact Htrue | exact (Hseq Htrue)].
Defined.

(** ** Layout of the header and of the record error payload *)

Lemma laid_out_end (offs : list (string * Z * Z)) :
  forall from len, laid_out from offs len -> from <= len.
Proof.
  induction offs as [| [[nm off] sz] offs IH]; intros from len H; simpl in H.
  - exact H.
  - destruct H as (H1 & H2 & H3). apply IH in H3. lia.
Qed.

Lemma length_write_member (image v : list Z) (off sz : Z) :
  0 <= off -> 0 <= sz -> off + sz <= Z.of_nat (List.length image) ->
  List.length (firstn (Z.to_nat off) image
               ++ fit (Z.to_nat sz) v
               ++ skipn (Z.to_nat (off + sz)) image)
  = List.length image.
Proof.
  intros. rewrite !length_app, length_firstn, length_fit, length_skipn. lia.
Qed.

(** Placing members does not touch the bytes before the first of them. *)
Lemma place_members_prefix (offs : list (string * Z * Z)) :
  forall (vals : list (list Z)) (image : list Z) (from : Z),
  0 <= from ->
  laid_out from offs (Z.of_nat (List.length image)) ->
  firstn (Z.to_nat from) (place_members offs vals image)
  = firstn (Z.to_nat from) image.
Proof.
  induction offs as [| [[nm off] sz] offs IH]; intros vals image from Hfrom H;
    [reflexivity |].
  destruct vals as [| v vals]; [reflexivity |].
  simpl in H. destruct H as (Hoff & Hsz & Hrest).
  pose proof (laid_out_end _ _ _ Hrest) as Hend.
  cbn [place_members].
  set (image' := firstn (Z.to_nat off) image ++ fit (Z.to_nat sz) v
                 ++ skipn (Z.to_nat (off + sz)) image).
  assert (Hlen : List.length image' = List.length image)
    by (apply length_write_member; lia).
  assert (IH' : firstn (Z.to_nat (off + sz)) (place_members offs vals image')
                = firstn (Z.to_nat (off + sz)) image').
  { apply IH; [lia | now rewrite Hlen]. }
  replace (Z.to_nat from) with (Nat.min (Z.to_nat from) (Z.to_nat (off + sz)))
    by lia.
  rewrite <- !firstn_firstn, IH', !firstn_firstn.
  replace (Nat.min (Z.to_nat from) (Z.to_nat (off + sz))) with (Z.to_nat from)
    by lia.
  unfold image'. rewrite firstn_app, firstn_firstn, length_firstn.
  replace (Z.to_nat from - Nat.min (Z.to_nat off) (List.length image))%nat
    with 0%nat by lia.
  replace (Nat.min (Z.to_nat from) (Z.to_nat off)) with (Z.to_nat from) by lia.
  cbn [firstn]. apply app_nil_r.
Qed.

(** A member is read back from the image at its offset. *)
Lemma place_members_slice (offs : list (string * Z * Z)) :
  forall (vals : list (list Z)) (image : list Z) (from : Z) (i : nat)
         (nm : string) (off sz : Z) (v : list Z),
  0 <= from ->
  laid_out from offs (Z.of_nat (List.length image)) ->
  nth_error offs i = Some (nm, off, sz) ->
  nth_error vals i = Some v ->
  slice off sz (place_members offs vals image) = fit (Z.to_nat sz) v.
Proof.
  induction offs as [| [[nm0 off0] sz0] offs IH];
    intros vals image from i nm off sz v Hfrom H Hi Hv;
    [destruct i; discriminate |].
  destruct vals as [| v0 vals]; [destruct i; discriminate |].
  simpl in H. destruct H as (Hoff & Hsz & Hrest).
  pose proof (laid_out_end _ _ _ Hrest) as Hend.
  cbn [place_members].
  set (image' := firstn (Z.to_nat off0) image ++ fit (Z.to_nat sz0) v0
                 ++ skipn (Z.to_nat (off0 + sz0)) image).
  assert (Hlen : List.length image' = List.length image)
    by (apply length_write_member; lia).
  destruct i as [| i].
  - injection Hi as <- <- <-. injection Hv as <-.
    unfold slice. rewrite firstn_skipn_comm.
    replace (Z.to_nat off0 + Z.to_nat sz0)%nat with (Z.to_nat (off0 + sz0))
      by lia.
    rewrite (place_members_prefix offs vals image' (off0 + sz0));
      [| lia | now rewrite Hlen].
    unfold image'. rewrite app_assoc, firstn_app.
    rewrite firstn_all2
      by (rewrite length_app, length_firstn, length_fit; lia).
    rewrite length_app, length_firstn, length_fit.
    replace (Z.to_nat (off0 + sz0)
             - (Nat.min (Z.to_nat off0) (List.length image) + Z.to_nat sz0))%nat
      with 0%nat by lia.
    cbn [firstn]. rewrite app_nil_r, skipn_app.
    rewrite skipn_all2 by (rewrite length_firstn; lia).
    rewrite length_firstn.
    replace (Z.to_nat off0 - Nat.min (Z.to_nat off0) (List.length image))%nat
      with 0%nat by lia.
    reflexivity.
  - cbn [nth_error] in Hi, Hv.
    apply (IH vals image' (off0 + sz0) i nm off sz v); try assumption; try lia.
    now rewrite Hlen.
Qed.

Lemma slice_slice (a n b m : Z) (l : list Z) :
  0 <= a -> 0 <= n -> 0 <= b -> a + n <= m ->
  slice a n (slice b m l) = slice (b + a) n l.
Proof.
  intros Ha Hn Hb Ham. unfold slice.
  rewrite firstn_skipn_comm, firstn_firstn.
  replace (Nat.min (Z.to_nat a + Z.to_nat n) (Z.to_nat m))
    with (Z.to_nat a + Z.to_nat n)%nat by lia.
  rewrite <- firstn_skipn_comm, skipn_skipn.
  f_equal. f_equal. lia.
Qed.

(** Reads member number [i] back from a structure image. *)
Ltac member_slice idx :=
  unfold struct_image;
  erewrite (place_members_slice _ _ _ 0 idx);
  [
  | lia
  | vm_compute; intuition discriminate
  | reflexivity
  | reflexivity ];
  reflexivity.

Lemma header_member_slices (h : monad_event_ring_header) :
  slice 0 6 (encode_header h) = fit 6 (magic h)
  /\ slice 6 2 (encode_header h)
     = le_bytes 2 (content_type_value (content_type h))
  /\ slice 8 32 (encode_header h) = fit 32 (schema_hash h)
  /\ slice 40 24 (encode_header h) = encode_size (size h)
  /\ slice 64 128 (encode_header h) = encode_control (control h).
Proof.
  unfold encode_header.
  split; [member_slice 0%nat |].
  split; [member_slice 1%nat |].
  split; [member_slice 2%nat |].
  split.
  - unfold struct_image at 1.
    erewrite (place_members_slice _ _ _ 0 3%nat _ _ _ (encode_size (size h)));
      [ | lia | vm_compute; intuition discriminate | reflexivity | reflexivity ].
    destruct (size h) as [cap psz ctx]. reflexivity.
  - unfold struct_image at 1.
    erewrite (place_members_slice _ _ _ 0 4%nat _ _ _
                (encode_control (control h)));
      [ | lia | vm_compute; intuition discriminate | reflexivity | reflexivity ].
    destruct (control h) as [ls np bws]. reflexivity.
Qed.

(** X15.  Layout of the control block and of the header.  In
    [struct monad_event_ring_control] the recorder's [last_seqno] and
    [next_payload_byte] share the first 64-byte line and
    [buffer_window_start] starts the second; the block is 128 bytes,
    64-byte aligned.  In [struct monad_event_ring_header] the members
    follow one another without padding: [magic] at 0, [content_type] at 6,
    [schema_hash] at 8, [size] at 40 (24 bytes) and [control] at 64, which
    puts [buffer_window_start] at byte 128 of the header; the header is 192
    bytes, and in its image the sizes are read back at bytes 40, 48 and 56
    and the control registers at bytes 64, 72 and 128, whatever the field
    values. *)
Theorem header_layout :
  member_offsets 0 monad_event_ring_control_members =
    [ ("last_seqno"%string, 0, 8);
      ("next_payload_byte"%string, 8, 8);
      ("buffer_window_start"%string, 64, 8) ]
  /\ sizeof_struct monad_event_ring_control_members = 128
  /\ alignof_struct monad_event_ring_control_members = 64
  /\ sizeof_struct monad_event_ring_size_members = 24
  /\ member_offsets 0 monad_event_ring_header_members =
       [ ("magic"%string, 0, 6);
         ("content_type"%string, 6, 2);
         ("schema_hash"%string, 8, 32);
         ("size"%string, 40, 24);
         ("control"%string, 64, 128) ]
  /\ sizeof_struct monad_event_ring_header_members = 192
  /\ alignof_struct monad_event_ring_header_members = 64
  /\ (forall h : monad_event_ring_header,
        List.length (encode_header h) = 192%nat
        /\ slice 6 2 (encode_header h)
           = le_bytes 2 (content_type_value (content_type h))
        /\ slice 40 8 (encode_header h)
           = le_bytes 8 (descriptor_capacity (size h))
        /\ slice 48 8 (encode_header h)
           = le_bytes 8 (payload_buf_size (size h))
        /\ slice 56 8 (encode_header h)
           = le_bytes 8 (context_area_size (size h))
        /\ slice 64 8 (encode_header h)
           = le_bytes 8 (last_seqno (control h))
        /\ slice 72 8 (encode_header h)
           = le_bytes 8 (next_payload_byte (control h))
        /\ slice 128 8 (encode_header h)
           = le_bytes 8 (buffer_window_start (control h))).
Proof.
  repeat (split; [reflexivity |]).
  intros h.
  destruct (header_member_slices h) as (_ & Hct & _ & Hsz & Hctl).
  split; [apply length_encode_header |].
  split; [exact Hct |].
  assert (Hin_sz : forall a b, b = 40 + a -> 0 <= a -> a + 8 <= 24 ->
            slice b 8 (encode_header h) = slice a 8 (encode_size (size h))).
  { intros a b -> Ha Hb. rewrite <- Hsz. symmetry. apply slice_slice; lia. }
  assert (Hin_ctl : forall a b, b = 64 + a -> 0 <= a -> a + 8 <= 128 ->
            slice b 8 (encode_header h)
            = slice a 8 (encode_control (control h))).
  { intros a b -> Ha Hb. rewrite <- Hctl. symmetry. apply slice_slice; lia. }
  split; [rewrite (Hin_sz 0 40) by lia;
          destruct (size h) as [cap psz ctx]; reflexivity |].
  split; [rewrite (Hin_sz 8 48) by lia;
          destruct (size h) as [cap psz ctx]; reflexivity |].
  split; [rewrite (Hin_sz 16 56) by lia;
          destruct (size h) as [cap psz ctx]; reflexivity |].
  split; [rewrite (Hin_ctl 0 64) by lia;
          destruct (control h) as [ls np bws]; reflexivity |].
  split; [rewrite (Hin_ctl 8 72) by lia;
          destruct (control h) as [ls np bws]; reflexivity |].
  rewrite (Hin_ctl 64 128) by lia.
  destruct (control h) as [ls np bws]. reflexivity.
Qed.

(** X16.  Layout of the record error payload.
    [struct monad_event_record_error] is 16 bytes: [error_type] at 0,
    [dropped_event_type] at 2, [truncated_payload_size] at 4 and
    [requested_payload_size] at 8, without padding.  Its alignment is 16,
    which is [MONAD_EVENT_PAYLOAD_ALIGN], the alignment of payload buffer
    allocations.  The four error types have the codes 0 to 3, all
    different. *)
Theorem record_error_layout :
  member_offsets 0 monad_event_record_error_members =
    [ ("error_type"%string, 0, 2);
      ("dropped_event_type"%string, 2, 2);
      ("truncated_payload_size"%string, 4, 4);
      ("requested_payload_size"%string, 8, 8) ]
  /\ sizeof_struct monad_event_record_error_members = 16
  /\ alignof_struct monad_event_record_error_members
     = MONAD_EVENT_PAYLOAD_ALIGN
  /\ map record_error_type_value
       [ MONAD_EVENT_RECORD_ERROR_NONE;
         MONAD_EVENT_RECORD_ERROR_OVERFLOW_4GB;
         MONAD_EVENT_RECORD_ERROR_OVERFLOW_EXPIRE;
         MONAD_EVENT_RECORD_ERROR_MISSING_EVENT ] = [0; 1; 2; 3]
  /\ (forall e e' : monad_event_record_error_type,
        record_error_type_value e = record_error_type_value e' -> e = e').
Proof.
  repeat (split; [reflexivity |]).
  intros [] []; simpl; intros H; try reflexivity; discriminate.
Qed.

(** X17.  [monad_event_ring_payload_peek] keeps the payload alignment: for
    a handle whose mask is the buffer size minus one, with a buffer of at
    least [MONAD_EVENT_PAYLOAD_ALIGN] bytes (a power of two) that starts at
    an aligned address, an offset that is a multiple of
    [MONAD_EVENT_PAYLOAD_ALIGN] gives a pointer that is one too, on every
    lap of the buffer. *)
Theorem payload_peek_aligned (event_ring : monad_event_ring)
    (sz : monad_event_ring_size) (event : monad_event_descriptor) (k : Z) :
  4 <= k ->
  payload_buf_size sz = 2 ^ k ->
  payload_buf_mask event_ring = payload_buf_size sz - 1 ->
  payload_buf event_ring mod MONAD_EVENT_PAYLOAD_ALIGN = 0 ->
  payload_buf_offset event mod MONAD_EVENT_PAYLOAD_ALIGN = 0 ->
  monad_event_ring_payload_peek event_ring event
    mod MONAD_EVENT_PAYLOAD_ALIGN = 0.
Proof.
  unfold MONAD_EVENT_PAYLOAD_ALIGN.
  intros Hk Hsz Hmask Hbase Hoff. unfold monad_event_ring_payload_peek.
  rewrite Hmask, Hsz, land_mask_mod by lia.
  assert (Hdiv : (16 | 2 ^ k)).
  { exists (2 ^ (k - 4)).
    replace 16 with (2 ^ 4) by reflexivity.
    rewrite <- Z.pow_add_r by lia. f_equal. lia. }
  assert (Hpos : 0 < 2 ^ k) by (apply Z.pow_pos_nonneg; lia).
  assert (Hin : (payload_buf_offset event mod 2 ^ k) mod 16 = 0).
  { rewrite Z.mod_mod_divide by assumption. exact Hoff. }
  rewrite Z.add_mod, Hbase, Hin by lia. reflexivity.
Qed.

Lemma payload_peek_aligned_witness :
  monad_event_ring_payload_peek sample_ring
    (with_payload_buf_offset (2 ^ 27 + 48) sample_event)
    mod MONAD_EVENT_PAYLOAD_ALIGN = 0.
Proof.
  assert (Hk : 4 <= 27) by lia.
  exact (payload_peek_aligned sample_ring sample_size
           (with_payload_buf_offset (2 ^ 27 + 48) sample_event) 27
           Hk eq_refl eq_refl eq_refl eq_refl).
Defined.
